(** * MemoryPool: a fixed-size-object pool allocator (C-11/MemoryPool.h, .tcc)

    A shallow embedding of the class template [MemoryPool<T, BlockSize>]
    and the properties of its block growth, free list and ownership
    transfer.

    Addresses and [size_t] values are 64-bit unsigned integers, written as
    [Z] with the wrap-around spelled out ([wrap]).  The raw memory the pool
    threads its two linked lists through is a store of pointer-sized words
    ([Heap]); the system allocator ([operator new]) is an oracle handed to
    every call that may reach it. *)

From Stdlib Require Import String ZArith List Lia Bool Permutation.
Import ListNotations.
Open Scope Z_scope.

(** ** The machine: LP64 *)

Definition ptr_modulus : Z := 2 ^ 64.

(** Unsigned 64-bit arithmetic ([uintptr_t], [size_t], pointer bumps). *)
Definition wrap (x : Z) : Z := x mod ptr_modulus.

Definition nullptr : Z := 0.

(** [sizeof(slot_pointer_)], [sizeof(data_pointer_)], the alignment of a pointer. *)
Definition sizeof_pointer : Z := 8.
Definition alignof_pointer : Z := 8.

(** ** Raw memory

    The pool only ever reads and writes one pointer-sized word per address:
    the [next] member of a [Slot_] (which for a block is its leading word).
    [load h a] is the word found at [a]; nothing is assumed about words that
    were never stored.  The word at [a] stands for the bytes [a .. a+7]:
    words less than 8 bytes apart share bytes in the machine but are kept
    apart here, which is exact as long as the words stored and loaded are
    at least 8 bytes apart, as the block headers and slots of a session
    are.  [overwrite h p size img] is memory after the [size] bytes from [p]
    on were written by someone else: every word that shares a byte with
    them is replaced by what [img] says. *)

Module Heap.

Definition t : Type := Z -> Z.

Definition load (h : t) (a : Z) : Z := h a.

Definition store (h : t) (a v : Z) : t :=
  fun x => if x =? a then v else h x.

Definition overwrite (h : t) (p size : Z) (img : Z -> Z) : t :=
  fun x => if (p - 8 <? x) && (x <? p + size) then img x else h x.

End Heap.

Arguments Heap.load : simpl never.
Arguments Heap.store : simpl never.
Arguments Heap.overwrite : simpl never.

(** ** The pool object: four cursors *)

Record MemoryPool : Type := mkPool {
  currentBlock_ : Z;   (* head of the chain of blocks *)
  currentSlot_  : Z;   (* bump cursor *)
  lastSlot_     : Z;   (* limit cursor *)
  freeSlots_    : Z    (* head of the free list *)
}.

(** What can be observed from outside the pool. *)
Inductive event : Type :=
| Deleted (block : Z)        (* operator delete(block) *)
| Constructed (p : Z)        (* placement new at p *)
| Destroyed (p : Z).         (* p->~value_type() *)

Record World : Type := mkWorld {
  pool   : MemoryPool;
  heap   : Heap.t;
  events : list event
}.

Definition set_pool (w : World) (p : MemoryPool) : World :=
  mkWorld p (heap w) (events w).

Definition emit (w : World) (e : event) : World :=
  mkWorld (pool w) (heap w) (events w ++ [e]).

(** A call either returns or lets [std::bad_alloc] escape; the world after
    the call is given in both cases. *)
Inductive outcome (A : Type) : Type :=
| Returned (a : A)
| BadAlloc.
Arguments Returned {A} a.
Arguments BadAlloc {A}.

(** [MemoryPool()] *)
Definition MemoryPool_new : MemoryPool :=
  mkPool nullptr nullptr nullptr nullptr.

(** [MemoryPool(const MemoryPool&)] and [MemoryPool(const MemoryPool<U>&)]:
    both delegate to the default constructor. *)
Definition MemoryPool_copy (memoryPool : MemoryPool) : MemoryPool :=
  MemoryPool_new.

(** ** Member access

    The data members the class declares (MemoryPool.h:155-160).  A member
    function that names a member is instantiated by looking the names up in
    the class; if the class declares no member of some name the function is
    ill-formed and there is nothing to run ([None]). *)
Inductive member : Type :=
| m_currentBlock
| m_currentSlot
| m_lastSlot
| m_freeSlots.

Definition declared_member (name : string) : option member :=
  if (name =? "currentBlock_")%string then Some m_currentBlock
  else if (name =? "currentSlot_")%string then Some m_currentSlot
  else if (name =? "lastSlot_")%string then Some m_lastSlot
  else if (name =? "freeSlots_")%string then Some m_freeSlots
  else None.

Definition get_member (f : member) (object : MemoryPool) : Z :=
  match f with
  | m_currentBlock => currentBlock_ object
  | m_currentSlot => currentSlot_ object
  | m_lastSlot => lastSlot_ object
  | m_freeSlots => freeSlots_ object
  end.

Definition set_member (f : member) (v : Z) (object : MemoryPool) : MemoryPool :=
  match f with
  | m_currentBlock =>
      mkPool v (currentSlot_ object) (lastSlot_ object) (freeSlots_ object)
  | m_currentSlot =>
      mkPool (currentBlock_ object) v (lastSlot_ object) (freeSlots_ object)
  | m_lastSlot =>
      mkPool (currentBlock_ object) (currentSlot_ object) v (freeSlots_ object)
  | m_freeSlots =>
      mkPool (currentBlock_ object) (currentSlot_ object) (lastSlot_ object) v
  end.

(** A class that declares one more name for a member. *)
Definition with_member (name : string) (f : member)
  (class : string -> option member) : string -> option member :=
  fun n => if (n =? name)%string then Some f else class n.

Notation "x <- e ;; k" :=
  (match e with Some x => k | None => None end)
  (at level 61, e at next level, right associativity).

(** [MemoryPool(MemoryPool&&)], instantiated in a class with the given
    members.  The function it yields takes the new object (its members
    still indeterminate) and the source, and gives both back.  The last
    statement reads [memoryPool.freeSlots]. *)
Definition MemoryPool_move_in (class : string -> option member)
  : option (MemoryPool -> MemoryPool -> MemoryPool * MemoryPool) :=
  currentBlock <- class "currentBlock_"%string ;;
  currentSlot <- class "currentSlot_"%string ;;
  lastSlot <- class "lastSlot_"%string ;;
  freeSlots_this <- class "freeSlots_"%string ;;
  freeSlots_source <- class "freeSlots"%string ;;
  Some (fun (this memoryPool : MemoryPool) =>
          let this :=
            set_member currentBlock (get_member currentBlock memoryPool) this in
          let memoryPool := set_member currentBlock nullptr memoryPool in
          let this :=
            set_member currentSlot (get_member currentSlot memoryPool) this in
          let this :=
            set_member lastSlot (get_member lastSlot memoryPool) this in
          let this :=
            set_member freeSlots_this
              (get_member freeSlots_source memoryPool) this in
          (this, memoryPool)).

(** [operator=(MemoryPool&&)], likewise; [same] says whether
    [this == &memoryPool].  Its last assignment reads [memoryPool.freeSlots]
    too. *)
Definition MemoryPool_move_assign_in (class : string -> option member)
  : option (bool -> MemoryPool -> MemoryPool -> MemoryPool * MemoryPool) :=
  currentBlock <- class "currentBlock_"%string ;;
  currentSlot <- class "currentSlot_"%string ;;
  lastSlot <- class "lastSlot_"%string ;;
  freeSlots_this <- class "freeSlots_"%string ;;
  freeSlots_source <- class "freeSlots"%string ;;
  Some (fun (same : bool) (this memoryPool : MemoryPool) =>
          if same then (this, this)
          else
            let swapped_this :=
              set_member currentBlock (get_member currentBlock memoryPool)
                this in
            let memoryPool :=
              set_member currentBlock (get_member currentBlock this)
                memoryPool in
            let this := swapped_this in
            let this :=
              set_member currentSlot (get_member currentSlot memoryPool)
                this in
            let this :=
              set_member lastSlot (get_member lastSlot memoryPool) this in
            let this :=
              set_member freeSlots_this
                (get_member freeSlots_source memoryPool) this in
            (this, memoryPool)).

(** The two functions in the class as the header declares it. *)
Definition MemoryPool_move
  : option (MemoryPool -> MemoryPool -> MemoryPool * MemoryPool) :=
  MemoryPool_move_in declared_member.

Definition MemoryPool_move_assign
  : option (bool -> MemoryPool -> MemoryPool -> MemoryPool * MemoryPool) :=
  MemoryPool_move_assign_in declared_member.

(** [~MemoryPool()]: the blocks handed to [operator delete], in order.  The
    loop follows the words stored in memory, so it is given fuel. *)
Fixpoint release_chain (fuel : nat) (h : Heap.t) (curr : Z) : option (list Z) :=
  if curr =? nullptr then Some []
  else
    match fuel with
    | O => None
    | S fuel' =>
        let prev := Heap.load h curr in
        match release_chain fuel' h prev with
        | Some rest => Some (curr :: rest)
        | None => None
        end
    end.

Definition MemoryPool_destroy (fuel : nat) (w : World) : option World :=
  match release_chain fuel (heap w) (currentBlock_ (pool w)) with
  | Some bs => Some (mkWorld (pool w) (heap w) (events w ++ map Deleted bs))
  | None => None
  end.

(** [padPointer(p, align)]: [(align - result) % align] on unsigned 64-bit
    operands.  ([align = 0] is a division by zero in the source.) *)
Definition padPointer (p align : Z) : Z :=
  wrap (align - p) mod align.

(** Round [x] up to a multiple of [a]. *)
Definition round_up (x a : Z) : Z := (x + a - 1) / a * a.

(** [off] is the least non-negative offset that aligns [p] to [align]. *)
Definition least_padding (p align off : Z) : Prop :=
  0 <= off /\ (p + off) mod align = 0 /\
  forall o, 0 <= o -> (p + o) mod align = 0 -> off <= o.

Section Template.

(** The template arguments: [T], through its size and alignment, and
    [BlockSize]. *)
Variables sizeof_T alignof_T BlockSize : Z.

(** [union Slot_ { value_type element; Slot_* next; }] *)
Definition alignof_slot : Z := Z.max alignof_T alignof_pointer.
Definition sizeof_slot : Z :=
  round_up (Z.max sizeof_T sizeof_pointer) alignof_slot.

(** [allocateBlock()]; [sys] is what [operator new(BlockSize)] does when it
    is called: hand out a block or throw. *)
Definition allocateBlock (sys : option Z) (w : World) : outcome unit * World :=
  match sys with
  | None => (BadAlloc, w)
  | Some newBlock =>
      let m := pool w in
      let h := Heap.store (heap w) newBlock (currentBlock_ m) in
      let body := wrap (newBlock + sizeof_pointer) in
      let bodyPadding := padPointer body alignof_slot in
      let currentSlot := wrap (body + bodyPadding) in
      let lastSlot := wrap (newBlock + BlockSize - sizeof_slot + 1) in
      (Returned tt,
       mkWorld (mkPool newBlock currentSlot lastSlot (freeSlots_ m))
               h (events w))
  end.

(** [allocate(n, hint)] *)
Definition allocate (n hint : Z) (sys : option Z) (w : World)
  : outcome Z * World :=
  let m := pool w in
  if negb (freeSlots_ m =? nullptr) then
    let result := freeSlots_ m in
    (Returned result,
     set_pool w (mkPool (currentBlock_ m) (currentSlot_ m) (lastSlot_ m)
                        (Heap.load (heap w) (freeSlots_ m))))
  else
    let '(r, w1) :=
      if currentSlot_ m >=? lastSlot_ m then allocateBlock sys w
      else (Returned tt, w) in
    match r with
    | BadAlloc => (BadAlloc, w1)
    | Returned _ =>
        let m1 := pool w1 in
        (Returned (currentSlot_ m1),
         set_pool w1 (mkPool (currentBlock_ m1)
                             (wrap (currentSlot_ m1 + sizeof_slot))
                             (lastSlot_ m1) (freeSlots_ m1)))
    end.

(** [deallocate(p, n)] *)
Definition deallocate (p n : Z) (w : World) : World :=
  let m := pool w in
  if negb (p =? nullptr) then
    mkWorld (mkPool (currentBlock_ m) (currentSlot_ m) (lastSlot_ m) p)
            (Heap.store (heap w) p (freeSlots_ m))
            (events w)
  else w.

(** [max_size()] *)
Definition max_size : Z :=
  let maxBlocks := wrap (-1) / BlockSize in
  wrap ((BlockSize - sizeof_pointer) / sizeof_slot * maxBlocks).

(** What running a constructor of some [U] at [p] does, as far as a pool can
    see: it overwrites the [sizeof(U)] bytes of the object ([written] gives
    the words found afterwards wherever a word shares a byte with them) and
    it either completes or throws. *)
Record constructor_run : Type := mkRun {
  written   : Z -> Z;
  completes : bool
}.

Inductive completion : Type :=
| Completed
| Threw.       (* an exception of the constructor escaped *)

(** [construct(p, args...)]: placement new of a [U] of [sizeof_U] bytes; an
    exception of the constructor is not caught. *)
Definition construct (sizeof_U p : Z) (c : constructor_run) (w : World)
  : completion * World :=
  let h := Heap.overwrite (heap w) p sizeof_U (written c) in
  if completes c then
    (Completed, mkWorld (pool w) h (events w ++ [Constructed p]))
  else (Threw, mkWorld (pool w) h (events w)).

(** [destroy(p)] *)
Definition destroy (p : Z) (w : World) : World :=
  emit w (Destroyed p).

(** How [newElement] ends: with the address of the new element, with
    [std::bad_alloc] from [allocate], or with the exception of the element's
    constructor. *)
Inductive element_outcome : Type :=
| Element (p : Z)
| NoMemory
| ConstructorThrew.

(** [newElement(args...)] *)
Definition newElement (c : constructor_run) (sys : option Z) (w : World)
  : element_outcome * World :=
  match allocate 1 0 sys w with
  | (Returned result, w1) =>
      match construct sizeof_T result c w1 with
      | (Completed, w2) => (Element result, w2)
      | (Threw, w2) => (ConstructorThrew, w2)
      end
  | (BadAlloc, w1) => (NoMemory, w1)
  end.

(** [deleteElement(p)] *)
Definition deleteElement (p : Z) (w : World) : World :=
  if negb (p =? nullptr) then
    let w1 := emit w (Destroyed p) in
    deallocate p 1 w1
  else w.


(** ** Sessions: a pool driven by its caller

    A session runs a sequence of calls on one pool and records, next to the
    world, what the caller and the system allocator know: which addresses
    are live (returned by [allocate] and not yet given back), which blocks
    [operator new] has handed out, and every address [allocate] returned. *)

Inductive op : Type :=
| OpAllocate (n hint : Z) (sys : option Z)
| OpDeallocate (p n : Z)
| OpConstruct (sizeof_U p : Z) (c : constructor_run).

Record session : Type := mkSession {
  world    : World;
  live     : list Z;
  blocks   : list Z;
  returned : list Z
}.

(** What [operator new(BlockSize)] guarantees of a block it returns: it is
    not null, suitably aligned for a pointer, lies inside the address space
    (its one-past-the-end address included) and overlaps no block that is
    still allocated. *)
Definition block_ok (b : Z) (owned : list Z) : bool :=
  (0 <? b) && (b mod alignof_pointer =? 0) && (b + BlockSize <? ptr_modulus)
  && forallb (fun b' => (b + BlockSize <=? b') || (b' + BlockSize <=? b)) owned.

(** Does the next [allocate] reach [allocateBlock]? *)
Definition grows (m : MemoryPool) : bool :=
  (freeSlots_ m =? nullptr) && (currentSlot_ m >=? lastSlot_ m).

Definition is_live (p : Z) (s : session) : bool :=
  existsb (Z.eqb p) (live s).

(** One call.  [None] means the environment broke its side of the contract:
    the system allocator returned a block that is not [block_ok], or the
    caller passed an address that is not live, or constructed an object that
    does not fit into a slot. *)
Definition step (o : op) (s : session) : option session :=
  match o with
  | OpAllocate n hint sys =>
      let g := grows (pool (world s)) in
      let bad :=
        match sys with
        | Some b => g && negb (block_ok b (blocks s))
        | None => false
        end in
      if bad then None
      else
        match allocate n hint sys (world s) with
        | (Returned p, w') =>
            Some (mkSession w' (p :: live s)
                    (if g then currentBlock_ (pool w') :: blocks s
                     else blocks s)
                    (p :: returned s))
        | (BadAlloc, w') =>
            Some (mkSession w' (live s) (blocks s) (returned s))
        end
  | OpDeallocate p n =>
      if is_live p s then
        Some (mkSession (deallocate p n (world s))
                (remove Z.eq_dec p (live s)) (blocks s) (returned s))
      else None
  | OpConstruct sizeof_U p c =>
      if is_live p s && (sizeof_U <=? sizeof_slot) then
        Some (mkSession (snd (construct sizeof_U p c (world s)))
                (live s) (blocks s) (returned s))
      else None
  end.

Fixpoint run (ops : list op) (s : session) : option session :=
  match ops with
  | [] => Some s
  | o :: rest =>
      match step o s with
      | Some s' => run rest s'
      | None => None
      end
  end.

(** A freshly constructed pool in arbitrary memory. *)
Definition start (h : Heap.t) : session :=
  mkSession (mkWorld MemoryPool_new h []) [] [] [].

(** Several [allocate()] calls in a row, one oracle per call. *)
Fixpoint allocate_each (oracles : list (option Z)) (w : World)
  : list (outcome Z) * World :=
  match oracles with
  | [] => ([], w)
  | sys :: rest =>
      let '(r, w1) := allocate 1 0 sys w in
      let '(rs, w2) := allocate_each rest w1 in
      (r :: rs, w2)
  end.

(** The first slot of the block at [b], and the [k] slots from [a] on. *)
Definition first_slot (b : Z) : Z :=
  b + sizeof_pointer + padPointer (b + sizeof_pointer) alignof_slot.

Definition slots_from (a : Z) (k : nat) : list Z :=
  map (fun i => a + Z.of_nat i * sizeof_slot) (seq 0 k).

(** ** The invariant of a session *)

(** [chain h a l]: following the stored words from [a] visits exactly [l]
    and ends at the null pointer. *)
Inductive chain (h : Heap.t) : Z -> list Z -> Prop :=
| chain_nil : chain h nullptr []
| chain_cons (a : Z) (l : list Z) :
    a <> nullptr -> chain h (Heap.load h a) l -> chain h a (a :: l).

(** The slot at [a] lies in the part of block [b] that has been handed out:
    below the bump cursor for the current block, anywhere in the body for an
    older one. *)
Definition in_block (m : MemoryPool) (b a : Z) : Prop :=
  b + sizeof_pointer <= a /\
  a + sizeof_slot <=
    (if b =? currentBlock_ m then currentSlot_ m else b + BlockSize).

Definition cursors_ok (m : MemoryPool) (bs : list Z) : Prop :=
  match bs with
  | [] => currentSlot_ m = nullptr /\ lastSlot_ m = nullptr
  | b :: _ =>
      lastSlot_ m = b + BlockSize - sizeof_slot + 1 /\
      b + sizeof_pointer <= currentSlot_ m <= b + BlockSize /\
      currentSlot_ m mod alignof_slot = 0
  end.

(** [fl] is the free list. *)
Record invariant (s : session) (fl : list Z) : Prop := mkInvariant {
  inv_blocks_ok :
    forall b, In b (blocks s) -> 0 < b /\ b + BlockSize < ptr_modulus;
  inv_blocks_apart :
    forall b b', In b (blocks s) -> In b' (blocks s) -> b <> b' ->
      b + BlockSize <= b' \/ b' + BlockSize <= b;
  inv_blocks_nodup : NoDup (blocks s);
  inv_block_chain :
    chain (heap (world s)) (currentBlock_ (pool (world s))) (blocks s);
  inv_cursors : cursors_ok (pool (world s)) (blocks s);
  inv_free_chain :
    chain (heap (world s)) (freeSlots_ (pool (world s))) fl;
  inv_nodup : NoDup (live s ++ fl);
  inv_slots :
    forall a, In a (live s ++ fl) ->
      a mod alignof_slot = 0 /\
      exists b, In b (blocks s) /\ in_block (pool (world s)) b a;
  inv_apart :
    forall a a', In a (live s ++ fl) -> In a' (live s ++ fl) -> a <> a' ->
      sizeof_slot <= Z.abs (a - a');
  inv_returned :
    Forall (fun p => p mod alignof_slot = 0) (returned s)
}.

(** ** Callers

    [newElement] directly followed by [deleteElement] of its result, once and
    several times in a row (one constructor run and one oracle per cycle),
    and a batch of [deallocate] calls. *)
Definition new_delete (c : constructor_run) (sys : option Z) (w : World)
  : element_outcome * World :=
  match newElement c sys w with
  | (Element p, w1) => (Element p, deleteElement p w1)
  | (NoMemory, w1) => (NoMemory, w1)
  | (ConstructorThrew, w1) => (ConstructorThrew, w1)
  end.

Fixpoint new_delete_each (calls : list (constructor_run * option Z))
  (w : World) : list element_outcome * World :=
  match calls with
  | [] => ([], w)
  | (c, sys) :: rest =>
      let '(r, w1) := new_delete c sys w in
      let '(rs, w2) := new_delete_each rest w1 in
      (r :: rs, w2)
  end.

Fixpoint deallocate_each (ps : list Z) (w : World) : World :=
  match ps with
  | [] => w
  | p :: rest => deallocate_each rest (deallocate p 1 w)
  end.

(** * Properties *)

(** ** Memory *)

Lemma load_store_same (h : Heap.t) (a v : Z) :
  Heap.load (Heap.store h a v) a = v.
Proof. unfold Heap.load, Heap.store. now rewrite Z.eqb_refl. Qed.

Lemma load_store_other (h : Heap.t) (a b v : Z) :
  b <> a -> Heap.load (Heap.store h a v) b = Heap.load h b.
Proof.
  intros Hne. unfold Heap.load, Heap.store.
  destruct (b =? a) eqn:E; [apply Z.eqb_eq in E; contradiction | reflexivity].
Qed.

Lemma load_overwrite_outside (h : Heap.t) (p size : Z) (img : Z -> Z) (a : Z) :
  a <= p - 8 \/ p + size <= a ->
  Heap.load (Heap.overwrite h p size img) a = Heap.load h a.
Proof.
  intros Hout. unfold Heap.load, Heap.overwrite.
  destruct ((p - 8 <? a) && (a <? p + size)) eqn:E; [|reflexivity].
  apply andb_prop in E. destruct E as [E1 E2].
  apply Z.ltb_lt in E1. apply Z.ltb_lt in E2. lia.
Qed.

(** ** Single calls, in any state of the pool *)

Lemma allocate_free_list (n hint : Z) (sys : option Z) (w : World) :
  freeSlots_ (pool w) <> nullptr ->
  allocate n hint sys w =
    (Returned (freeSlots_ (pool w)),
     set_pool w (mkPool (currentBlock_ (pool w)) (currentSlot_ (pool w))
                        (lastSlot_ (pool w))
                        (Heap.load (heap w) (freeSlots_ (pool w))))).
Proof.
  intros Hf. unfold allocate.
  destruct (freeSlots_ (pool w) =? nullptr) eqn:E; [|reflexivity].
  apply Z.eqb_eq in E. contradiction.
Qed.

Lemma allocate_bump (n hint : Z) (sys : option Z) (w : World) :
  freeSlots_ (pool w) = nullptr ->
  currentSlot_ (pool w) < lastSlot_ (pool w) ->
  allocate n hint sys w =
    (Returned (currentSlot_ (pool w)),
     set_pool w (mkPool (currentBlock_ (pool w))
                        (wrap (currentSlot_ (pool w) + sizeof_slot))
                        (lastSlot_ (pool w)) nullptr)).
Proof.
  intros Hf Hlt. unfold allocate. rewrite Hf. cbn [Z.eqb nullptr negb].
  destruct (currentSlot_ (pool w) >=? lastSlot_ (pool w)) eqn:E.
  - apply Z.geb_le in E. exfalso. apply (Z.lt_irrefl (lastSlot_ (pool w))).
    eapply Z.le_lt_trans; eassumption.
  - now rewrite Hf.
Qed.

Lemma allocate_grow (n hint : Z) (sys : option Z) (w : World) :
  freeSlots_ (pool w) = nullptr ->
  lastSlot_ (pool w) <= currentSlot_ (pool w) ->
  allocate n hint sys w =
    match allocateBlock sys w with
    | (Returned _, g) =>
        (Returned (currentSlot_ (pool g)),
         set_pool g (mkPool (currentBlock_ (pool g))
                            (wrap (currentSlot_ (pool g) + sizeof_slot))
                            (lastSlot_ (pool g)) nullptr))
    | (BadAlloc, g) => (BadAlloc, g)
    end.
Proof.
  intros Hf Hge. unfold allocate. rewrite Hf. cbn [Z.eqb nullptr negb].
  destruct (currentSlot_ (pool w) >=? lastSlot_ (pool w)) eqn:E.
  - destruct sys as [b|]; cbn; [now rewrite Hf | reflexivity].
  - exfalso. rewrite Z.geb_leb in E. apply Z.leb_gt in E.
    apply (Z.lt_irrefl (lastSlot_ (pool w))).
    eapply Z.le_lt_trans; eassumption.
Qed.

(** C2: [allocate] tries, in this order, the free list, the bump cursor of
    the current block, and block growth.  (1) A non-empty free list is
    popped and its head returned, the block cursors untouched and the system
    allocator not consulted.  (2) Otherwise, while the bump cursor is below
    the limit cursor, the bump cursor is returned and advanced by one slot.
    (3) Otherwise a block is grown and the call goes on as in (2) on the
    fresh block: it returns the fresh bump cursor and advances it by one
    slot. *)
Theorem allocate_order (n hint : Z) (w : World) :
  (freeSlots_ (pool w) <> nullptr ->
   forall sys,
     allocate n hint sys w =
       (Returned (freeSlots_ (pool w)),
        set_pool w (mkPool (currentBlock_ (pool w)) (currentSlot_ (pool w))
                           (lastSlot_ (pool w))
                           (Heap.load (heap w) (freeSlots_ (pool w)))))) /\
  (freeSlots_ (pool w) = nullptr ->
   currentSlot_ (pool w) < lastSlot_ (pool w) ->
   forall sys,
     allocate n hint sys w =
       (Returned (currentSlot_ (pool w)),
        set_pool w (mkPool (currentBlock_ (pool w))
                           (wrap (currentSlot_ (pool w) + sizeof_slot))
                           (lastSlot_ (pool w)) nullptr))) /\
  (freeSlots_ (pool w) = nullptr ->
   lastSlot_ (pool w) <= currentSlot_ (pool w) ->
   forall newBlock,
     let g := snd (allocateBlock (Some newBlock) w) in
     currentBlock_ (pool g) = newBlock /\
     Heap.load (heap g) newBlock = currentBlock_ (pool w) /\
     allocate n hint (Some newBlock) w =
       (Returned (currentSlot_ (pool g)),
        set_pool g (mkPool newBlock
                           (wrap (currentSlot_ (pool g) + sizeof_slot))
                           (lastSlot_ (pool g)) nullptr)) /\
     (currentSlot_ (pool g) < lastSlot_ (pool g) ->
      forall sys, allocate n hint (Some newBlock) w = allocate n hint sys g)).
Proof.
  split; [|split].
  - intros Hf sys. now apply allocate_free_list.
  - intros Hf Hlt sys. now apply allocate_bump.
  - intros Hf Hge newBlock g.
    assert (Hg : allocate n hint (Some newBlock) w =
      (Returned (currentSlot_ (pool g)),
       set_pool g (mkPool newBlock
                          (wrap (currentSlot_ (pool g) + sizeof_slot))
                          (lastSlot_ (pool g)) nullptr))).
    { rewrite (allocate_grow n hint (Some newBlock) w Hf Hge).
      subst g. cbn. now rewrite Hf. }
    split; [reflexivity|]. split; [apply load_store_same|].
    split; [exact Hg|].
    intros Hroom sys. rewrite Hg.
    assert (Hfg : freeSlots_ (pool g) = nullptr) by (subst g; cbn; exact Hf).
    rewrite (allocate_bump n hint sys g Hfg Hroom). reflexivity.
Qed.

Lemma allocate_throws (n hint : Z) (w : World) :
  grows (pool w) = true -> allocate n hint None w = (BadAlloc, w).
Proof.
  unfold grows. intros Hg. apply andb_prop in Hg. destruct Hg as [Hf Hc].
  apply Z.eqb_eq in Hf. apply Z.geb_le in Hc.
  now rewrite (allocate_grow n hint None w Hf Hc).
Qed.

Lemma allocate_outcomes (n hint : Z) (sys : option Z) (w : World) :
  (exists p w', allocate n hint sys w = (Returned p, w')) \/
  (allocate n hint sys w = (BadAlloc, w) /\
   sys = None /\ grows (pool w) = true).
Proof.
  destruct (grows (pool w)) eqn:Hg.
  - destruct sys as [b|].
    + left. unfold grows in Hg. apply andb_prop in Hg. destruct Hg as [Hf Hc].
      apply Z.eqb_eq in Hf. apply Z.geb_le in Hc.
      rewrite (allocate_grow n hint (Some b) w Hf Hc). cbn. eauto.
    + right. split; [now apply allocate_throws | auto].
  - left. unfold grows in Hg. apply andb_false_iff in Hg.
    destruct (Z.eq_dec (freeSlots_ (pool w)) nullptr) as [Hf|Hf].
    + destruct Hg as [Hg|Hg]; [apply Z.eqb_neq in Hg; contradiction|].
      rewrite Z.geb_leb in Hg. apply Z.leb_gt in Hg.
      rewrite (allocate_bump n hint sys w Hf Hg). eauto.
    + rewrite (allocate_free_list n hint sys w Hf). eauto.
Qed.


(** C9: [deallocate(nullptr)] changes nothing, and [deleteElement(nullptr)]
    changes nothing either: no cursor moves, no word of memory is written
    and no destructor is invoked (the event log is the same). *)
Theorem deallocate_null_noop (n : Z) (w : World) :
  deallocate nullptr n w = w /\ deleteElement nullptr w = w.
Proof. split; reflexivity. Qed.

(** C10: [allocate] ignores [n] and [hint]: with the same pool, memory and
    system allocator, any two argument pairs give the same result and the
    same world.  What is handed out is one slot: one free-list entry, or
    one bump of [sizeof_slot] bytes. *)
Theorem allocate_ignores_arguments
  (n hint n' hint' : Z) (sys : option Z) (w : World) :
  allocate n hint sys w = allocate n' hint' sys w /\
  (forall p w', allocate n hint sys w = (Returned p, w') ->
     (p = freeSlots_ (pool w) /\ p <> nullptr /\
      currentSlot_ (pool w') = currentSlot_ (pool w)) \/
     (freeSlots_ (pool w) = nullptr /\
      currentSlot_ (pool w') = wrap (p + sizeof_slot))).
Proof.
  split; [reflexivity|].
  intros p w' H.
  destruct (Z.eq_dec (freeSlots_ (pool w)) nullptr) as [Hf|Hf].
  - right. split; [exact Hf|].
    destruct (Z_lt_le_dec (currentSlot_ (pool w)) (lastSlot_ (pool w)))
      as [Hlt|Hge].
    + rewrite (allocate_bump n hint sys w Hf Hlt) in H.
      injection H as <- <-. reflexivity.
    + rewrite (allocate_grow n hint sys w Hf Hge) in H.
      destruct sys as [b|]; cbn in H; [|discriminate].
      injection H as <- <-. reflexivity.
  - left. rewrite (allocate_free_list n hint sys w Hf) in H.
    injection H as <- <-. auto.
Qed.

(** Giving back a non-null address and allocating again returns that very
    address, and puts the free list back to what it was. *)
Lemma deallocate_allocate (p n n' hint : Z) (sys : option Z) (w : World) :
  p <> nullptr ->
  allocate n' hint sys (deallocate p n w) =
    (Returned p,
     mkWorld (pool w) (Heap.store (heap w) p (freeSlots_ (pool w)))
             (events w)).
Proof.
  intros Hp. unfold deallocate.
  destruct (p =? nullptr) eqn:E; [apply Z.eqb_eq in E; contradiction|].
  cbn [negb]. rewrite allocate_free_list by exact Hp.
  cbn. rewrite load_store_same. destruct w as [[cb cs ls fs] h ev].
  reflexivity.
Qed.

(** ** Alignment arithmetic *)

Lemma wrap_mod_pow2 (x : Z) (k : Z) :
  0 <= k < 64 -> wrap x mod 2 ^ k = x mod 2 ^ k.
Proof.
  intros Hk. unfold wrap, ptr_modulus.
  apply Z.mod_mod_divide.
  exists (2 ^ (64 - k)). rewrite <- Z.pow_add_r by lia.
  f_equal. lia.
Qed.

Lemma wrap_small (x : Z) : 0 <= x < ptr_modulus -> wrap x = x.
Proof. intros H. unfold wrap. now apply Z.mod_small. Qed.

Lemma padPointer_pow2 (p k : Z) :
  0 <= k < 64 -> padPointer p (2 ^ k) = (- p) mod 2 ^ k.
Proof.
  intros Hk. unfold padPointer. rewrite wrap_mod_pow2 by exact Hk.
  assert (Hpos : 0 < 2 ^ k) by (apply Z.pow_pos_nonneg; lia).
  replace (2 ^ k - p) with (- p + 1 * 2 ^ k) by ring.
  apply Z.mod_add. lia.
Qed.

Lemma least_padding_opp_mod (p a : Z) :
  0 < a -> least_padding p a ((- p) mod a).
Proof.
  intros Ha. unfold least_padding.
  pose proof (Z.mod_pos_bound (- p) a Ha) as Hb.
  split; [lia|]. split.
  - rewrite Zplus_mod_idemp_r. replace (p + - p) with 0 by ring.
    apply Z.mod_0_l. lia.
  - intros o Ho Hal.
    destruct (Z_lt_le_dec o ((- p) mod a)) as [Hlt|]; [|assumption].
    exfalso.
    assert (Hd : ((- p) mod a - o) mod a = 0).
    { rewrite Zminus_mod_idemp_l.
      replace (- p - o) with (- (p + o)) by ring.
      apply Z.mod_opp_l_z; [lia | exact Hal]. }
    rewrite Z.mod_small in Hd by lia. lia.
Qed.


(** C8: for every address [p] and every alignment value [align] (a power of
    two representable in [size_t], as every alignment is), [padPointer]
    returns the least non-negative offset that makes [p + offset] a multiple
    of [align]; that is, [(align - p) mod align]. *)
Theorem padPointer_least (p align k : Z) :
  0 <= k < 64 -> align = 2 ^ k ->
  least_padding p align (padPointer p align) /\
  padPointer p align = (align - p) mod align.
Proof.
  intros Hk ->.
  assert (Hpos : 0 < 2 ^ k) by (apply Z.pow_pos_nonneg; lia).
  rewrite padPointer_pow2 by exact Hk. split.
  - now apply least_padding_opp_mod.
  - replace (2 ^ k - p) with (- p + 1 * 2 ^ k) by ring.
    symmetry. apply Z.mod_add. lia.
Qed.

(** ** Ownership transfer *)

Lemma release_chain_null (fuel : nat) (h : Heap.t) :
  release_chain fuel h nullptr = Some [].
Proof. destruct fuel; reflexivity. Qed.

Lemma destroy_without_blocks (fuel : nat) (w : World) :
  currentBlock_ (pool w) = nullptr -> MemoryPool_destroy fuel w = Some w.
Proof.
  intros H. unfold MemoryPool_destroy. rewrite H, release_chain_null.
  cbn. rewrite app_nil_r. now destruct w.
Qed.

(** The result of [allocate] does not depend on the current block. *)
Lemma allocate_result_current_block
  (n hint : Z) (sys : option Z) (m : MemoryPool) (b : Z)
  (h : Heap.t) (ev : list event) :
  fst (allocate n hint sys
         (mkWorld (mkPool b (currentSlot_ m) (lastSlot_ m) (freeSlots_ m))
                  h ev))
  = fst (allocate n hint sys (mkWorld m h ev)).
Proof.
  unfold allocate. cbn [pool freeSlots_ currentSlot_ lastSlot_ heap].
  destruct (freeSlots_ m =? nullptr); cbn [negb]; [|reflexivity].
  destruct (currentSlot_ m >=? lastSlot_ m); [|reflexivity].
  destruct sys; reflexivity.
Qed.

(** C1 (the code departs from it): the move constructor as written cannot be
    instantiated.  Its last statement reads [memoryPool.freeSlots]; the class
    declares [freeSlots_] and no member of that name, so there is no
    function to run: no pool is move-constructed and no cursor is
    transferred. *)
Theorem move_constructor_ill_formed :
  declared_member "freeSlots" = None /\
  MemoryPool_move = None /\
  forall this A,
    option_map (fun move => move this A) MemoryPool_move = None.
Proof. split; [reflexivity|]. split; [reflexivity|]. reflexivity. Qed.

(** Were the member named as that statement spells it, the constructor would
    copy the four cursors and reset only the source's current block: the
    source would keep its bump cursor, limit cursor and free-list head,
    and its next [allocate] would return the very address the new pool's
    next [allocate] returns. *)
Lemma move_constructor_keeps_source_cursors (this A : MemoryPool) :
  exists move,
    MemoryPool_move_in (with_member "freeSlots" m_freeSlots declared_member)
      = Some move /\
    move this A
      = (A, mkPool nullptr (currentSlot_ A) (lastSlot_ A) (freeSlots_ A)) /\
    forall n hint sys h ev,
      fst (allocate n hint sys (mkWorld (snd (move this A)) h ev))
      = fst (allocate n hint sys (mkWorld (fst (move this A)) h ev)).
Proof.
  eexists. split; [reflexivity|]. split; [now destruct A, this|].
  intros n hint sys h ev. destruct A as [cb cs ls fs], this as [cb' cs' ls' fs'].
  apply (allocate_result_current_block n hint sys (mkPool cb cs ls fs)).
Qed.

(** ** The template arguments a program can instantiate

    Every alignment is a power of two, and the class asserts statically
    that a block is at least two slots long. *)

Hypothesis alignof_T_pow2 : exists k, 0 <= k < 64 /\ alignof_T = 2 ^ k.
Hypothesis BlockSize_static_assert : BlockSize >= 2 * sizeof_slot.

Lemma alignof_slot_pow2 : exists k, 3 <= k < 64 /\ alignof_slot = 2 ^ k.
Proof.
  destruct alignof_T_pow2 as (k & Hk & E).
  unfold alignof_slot, alignof_pointer. rewrite E.
  destruct (Z_lt_le_dec k 3) as [Hlt|Hge].
  - exists 3. split; [lia|].
    apply Z.max_r. change 8 with (2 ^ 3).
    apply Z.pow_le_mono_r; lia.
  - exists k. split; [lia|].
    apply Z.max_l. change 8 with (2 ^ 3).
    apply Z.pow_le_mono_r; lia.
Qed.

Lemma alignof_slot_pos : 0 < alignof_slot.
Proof.
  destruct alignof_slot_pow2 as (k & Hk & ->).
  apply Z.pow_pos_nonneg; lia.
Qed.

Lemma alignof_slot_mod_8 : alignof_slot mod 8 = 0.
Proof.
  destruct alignof_slot_pow2 as (k & Hk & ->).
  apply Z.mod0_divide. exists (2 ^ (k - 3)).
  change 8 with (2 ^ 3). rewrite <- Z.pow_add_r by lia. f_equal. lia.
Qed.

Lemma alignof_slot_mod_T : alignof_slot mod alignof_T = 0.
Proof.
  destruct alignof_T_pow2 as (k & Hk & E).
  unfold alignof_slot, alignof_pointer.
  destruct (Z.max_spec alignof_T 8) as [[Hlt ->] | [_ ->]].
  - rewrite E in *. assert (k < 3).
    { destruct (Z_lt_le_dec k 3); [assumption|].
      assert (2 ^ 3 <= 2 ^ k) by (apply Z.pow_le_mono_r; lia).
      change (2 ^ 3) with 8 in *. lia. }
    apply Z.mod0_divide. exists (2 ^ (3 - k)).
    change 8 with (2 ^ 3). rewrite <- Z.pow_add_r by lia. f_equal. lia.
  - apply Z.mod_same. rewrite E.
    assert (0 < 2 ^ k) by (apply Z.pow_pos_nonneg; lia). lia.
Qed.

Lemma round_up_spec (x a : Z) :
  0 < a -> round_up x a mod a = 0 /\ x <= round_up x a.
Proof.
  intros Ha. unfold round_up. split.
  - apply Z.mod_mul. lia.
  - pose proof (Z.div_mod (x + a - 1) a ltac:(lia)) as E.
    pose proof (Z.mod_pos_bound (x + a - 1) a Ha) as B.
    lia.
Qed.

Lemma sizeof_slot_mod : sizeof_slot mod alignof_slot = 0.
Proof. apply round_up_spec, alignof_slot_pos. Qed.

Lemma sizeof_slot_ge_pointer : sizeof_pointer <= sizeof_slot.
Proof.
  unfold sizeof_slot.
  pose proof (round_up_spec (Z.max sizeof_T sizeof_pointer) alignof_slot
                alignof_slot_pos) as [_ H].
  lia.
Qed.

Lemma sizeof_slot_ge_align : alignof_slot <= sizeof_slot.
Proof.
  pose proof sizeof_slot_mod as Hm.
  pose proof sizeof_slot_ge_pointer as Hp. unfold sizeof_pointer in Hp.
  pose proof alignof_slot_pos as Ha.
  apply Z.mod_divide in Hm; [|lia]. destruct Hm as [q Hq].
  assert (1 <= q) by nia. nia.
Qed.

Lemma aligned_add (a b : Z) :
  a mod alignof_slot = 0 -> b mod alignof_slot = 0 ->
  (a + b) mod alignof_slot = 0.
Proof.
  intros Ha Hb. rewrite Z.add_mod by (pose proof alignof_slot_pos; lia).
  rewrite Ha, Hb. apply Z.mod_0_l. pose proof alignof_slot_pos. lia.
Qed.

Lemma aligned_for_T (a : Z) :
  a mod alignof_slot = 0 -> a mod alignof_T = 0.
Proof.
  intros Ha. rewrite <- (Z.mod_mod_divide a alignof_slot alignof_T).
  - rewrite Ha. apply Z.mod_0_l.
    destruct alignof_T_pow2 as (k & Hk & ->).
    assert (0 < 2 ^ k) by (apply Z.pow_pos_nonneg; lia). lia.
  - destruct alignof_T_pow2 as (k & Hk & E).
    apply Z.mod_divide; [|apply alignof_slot_mod_T].
    rewrite E. assert (0 < 2 ^ k) by (apply Z.pow_pos_nonneg; lia). lia.
Qed.

(** ** A block as [operator new] returns it *)

Lemma block_ok_spec (b : Z) (owned : list Z) :
  block_ok b owned = true ->
  0 < b /\ b mod 8 = 0 /\ b + BlockSize < ptr_modulus /\
  forall b', In b' owned -> b + BlockSize <= b' \/ b' + BlockSize <= b.
Proof.
  unfold block_ok, alignof_pointer. intros H.
  repeat (apply andb_prop in H; destruct H as [H ?]).
  repeat split; try lia.
  intros b' Hin.
  match goal with F : forallb _ _ = true |- _ =>
    rewrite forallb_forall in F; specialize (F b' Hin) end.
  lia.
Qed.

Lemma first_slot_spec (b : Z) :
  b mod 8 = 0 ->
  first_slot b mod alignof_slot = 0 /\
  b + sizeof_pointer <= first_slot b /\
  first_slot b + sizeof_slot <= b + BlockSize.
Proof.
  intros Hb. unfold first_slot, sizeof_pointer.
  destruct alignof_slot_pow2 as (k & Hk & E).
  pose proof alignof_slot_pos as Hpos.
  pose proof alignof_slot_mod_8 as H8.
  pose proof sizeof_slot_ge_align as Hsa.
  rewrite E, padPointer_pow2, <- E by lia.
  destruct (least_padding_opp_mod (b + 8) alignof_slot Hpos) as (H0 & Hal & _).
  pose proof (Z.mod_pos_bound (- (b + 8)) alignof_slot Hpos) as Hbound.
  assert (Hp8 : ((- (b + 8)) mod alignof_slot) mod 8 = 0).
  { rewrite Z.mod_mod_divide by (apply Z.mod_divide; [lia | exact H8]).
    replace (- (b + 8)) with (- b + (-1) * 8) by ring.
    rewrite Z.mod_add by lia. apply Z.mod_opp_l_z; [lia | exact Hb]. }
  split; [exact Hal|]. split; [lia|].
  apply Z.mod_divide in Hp8; [|lia]. destruct Hp8 as [q Hq].
  apply Z.mod_divide in H8; [|lia]. destruct H8 as [q' Hq'].
  lia.
Qed.


(** ** Linked lists threaded through memory *)

Lemma chain_null_inv (h : Heap.t) (l : list Z) :
  chain h nullptr l -> l = [].
Proof. inversion 1; [reflexivity | contradiction]. Qed.

Lemma chain_null_inv_head (h : Heap.t) (a : Z) :
  chain h a [] -> a = nullptr.
Proof. inversion 1. reflexivity. Qed.

Lemma chain_nonnull_inv (h : Heap.t) (a : Z) (l : list Z) :
  a <> nullptr -> chain h a l ->
  exists l', l = a :: l' /\ chain h (Heap.load h a) l'.
Proof.
  intros Ha Hc. inversion Hc; subst; [contradiction | eauto].
Qed.

Lemma chain_head (h : Heap.t) (a b : Z) (l : list Z) :
  chain h a (b :: l) -> a = b /\ b <> nullptr.
Proof. inversion 1; subst; auto. Qed.

Lemma chain_store_other (h : Heap.t) (x v a : Z) (l : list Z) :
  chain h a l -> ~ In x l -> chain (Heap.store h x v) a l.
Proof.
  induction 1 as [|a l Ha Hc IH]; intros Hx.
  - constructor.
  - constructor; [exact Ha|].
    rewrite load_store_other.
    + apply IH. intros Hin. apply Hx. now right.
    + intros ->. apply Hx. now left.
Qed.

Lemma chain_frame (h h' : Heap.t) (a : Z) (l : list Z) :
  chain h a l -> (forall x, In x l -> Heap.load h' x = Heap.load h x) ->
  chain h' a l.
Proof.
  induction 1 as [|a l Ha Hc IH]; intros Hsame.
  - constructor.
  - constructor; [exact Ha|].
    rewrite (Hsame a) by now left.
    apply IH. intros x Hx. apply Hsame. now right.
Qed.

Lemma chain_release (h : Heap.t) (a : Z) (l : list Z) (fuel : nat) :
  chain h a l -> (length l <= fuel)%nat -> release_chain fuel h a = Some l.
Proof.
  intros Hc. revert fuel. induction Hc as [|a l Ha Hc IH]; intros fuel Hf.
  - apply release_chain_null.
  - destruct fuel as [|fuel]; [cbn in Hf; lia|].
    cbn [release_chain]. apply Z.eqb_neq in Ha. rewrite Ha.
    rewrite IH by (cbn in Hf; lia). reflexivity.
Qed.

(** ** Lists of live addresses *)

Lemma is_live_In (p : Z) (s : session) : is_live p s = true <-> In p (live s).
Proof.
  unfold is_live. rewrite existsb_exists. split.
  - intros (x & Hin & E). apply Z.eqb_eq in E. now subst.
  - intros Hin. exists p. split; [exact Hin | apply Z.eqb_refl].
Qed.

Lemma NoDup_app_disjoint (l l' : list Z) (a : Z) :
  NoDup (l ++ l') -> In a l -> ~ In a l'.
Proof.
  induction l as [|x l IH]; intros Hnd Hin; [contradiction|].
  cbn in Hnd. inversion Hnd as [|? ? Hx Hl]; subst.
  destruct Hin as [->|Hin].
  - intros Hin'. apply Hx. apply in_or_app. now right.
  - now apply IH.
Qed.

Lemma remove_permutation (p : Z) (l : list Z) :
  NoDup l -> In p l -> Permutation l (p :: remove Z.eq_dec p l).
Proof.
  induction l as [|x l IH]; intros Hnd Hin; [contradiction|].
  inversion Hnd as [|? ? Hx Hl]; subst.
  cbn [remove]. destruct (Z.eq_dec p x) as [->|Hne].
  - rewrite notin_remove by exact Hx. reflexivity.
  - destruct Hin as [->|Hin]; [contradiction|].
    rewrite perm_swap. constructor. now apply IH.
Qed.


(** ** Consequences of the invariant *)

Lemma inv_current_block (s : session) (fl : list Z) :
  invariant s fl ->
  match blocks s with
  | [] => currentBlock_ (pool (world s)) = nullptr
  | b :: _ => currentBlock_ (pool (world s)) = b /\ b <> nullptr
  end.
Proof.
  intros Hinv. pose proof (inv_block_chain s fl Hinv) as Hc.
  destruct (blocks s) as [|b bs].
  - inversion Hc. reflexivity.
  - now apply chain_head in Hc.
Qed.

Lemma inv_slot_bounds (s : session) (fl : list Z) (a : Z) :
  invariant s fl -> In a (live s ++ fl) ->
  a mod alignof_slot = 0 /\
  exists b, In b (blocks s) /\
    b + sizeof_pointer <= a /\ a + sizeof_slot <= b + BlockSize.
Proof.
  intros Hinv Hin.
  destruct (inv_slots s fl Hinv a Hin) as (Hal & b & Hb & Hlo & Hhi).
  split; [exact Hal|]. exists b. split; [exact Hb|]. split; [exact Hlo|].
  destruct (b =? currentBlock_ (pool (world s))) eqn:E; [|exact Hhi].
  apply Z.eqb_eq in E.
  pose proof (inv_current_block s fl Hinv) as Hcb.
  pose proof (inv_cursors s fl Hinv) as Hcur.
  destruct (blocks s) as [|b0 bs]; [contradiction|].
  destruct Hcb as [Hcb _]. cbn in Hcur. lia.
Qed.

Lemma inv_slot_nonnull (s : session) (fl : list Z) (a : Z) :
  invariant s fl -> In a (live s ++ fl) -> a <> nullptr.
Proof.
  intros Hinv Hin.
  destruct (inv_slot_bounds s fl a Hinv Hin) as (_ & b & Hb & Hlo & _).
  destruct (inv_blocks_ok s fl Hinv b Hb) as [Hpos _].
  unfold nullptr, sizeof_pointer in *. lia.
Qed.

Lemma inv_slot_not_block (s : session) (fl : list Z) (a : Z) :
  invariant s fl -> In a (live s ++ fl) -> ~ In a (blocks s).
Proof.
  intros Hinv Hin Hblk.
  destruct (inv_slot_bounds s fl a Hinv Hin) as (_ & b & Hb & Hlo & Hhi).
  pose proof sizeof_slot_ge_pointer as Hs. unfold sizeof_pointer in *.
  destruct (Z.eq_dec a b) as [->|Hne]; [lia|].
  destruct (inv_blocks_apart s fl Hinv a b Hblk Hb Hne); lia.
Qed.

Lemma inv_live_apart (s : session) (fl : list Z) :
  invariant s fl ->
  NoDup (live s) /\
  forall p q, In p (live s) -> In q (live s) -> p <> q ->
    sizeof_slot <= Z.abs (p - q).
Proof.
  intros Hinv. split.
  - eapply NoDup_app_remove_r. apply (inv_nodup s fl Hinv).
  - intros p q Hp Hq. apply (inv_apart s fl Hinv); apply in_or_app; now left.
Qed.


(** ** The invariant holds initially and is kept by every call *)

Lemma invariant_start (h : Heap.t) : invariant (start h) [].
Proof.
  constructor; cbn; try (intros; contradiction); try constructor; auto.
Qed.

Lemma construct_world (sizeof_U p : Z) (c : constructor_run) (w : World) :
  pool (snd (construct sizeof_U p c w)) = pool w /\
  heap (snd (construct sizeof_U p c w))
    = Heap.overwrite (heap w) p sizeof_U (written c) /\
  events (snd (construct sizeof_U p c w))
    = events w ++ (if completes c then [Constructed p] else []).
Proof.
  unfold construct. destruct (completes c); cbn [snd pool heap events];
    rewrite ?app_nil_r; auto.
Qed.

Lemma construct_invariant
  (s : session) (fl : list Z) (sizeof_U p : Z) (c : constructor_run) :
  invariant s fl -> In p (live s) -> sizeof_U <= sizeof_slot ->
  invariant (mkSession (snd (construct sizeof_U p c (world s)))
               (live s) (blocks s) (returned s)) fl.
Proof.
  intros Hinv Hp Hfit.
  assert (Hpin : In p (live s ++ fl)) by (apply in_or_app; now left).
  pose proof sizeof_slot_ge_pointer as Hs8. unfold sizeof_pointer in Hs8.
  destruct (construct_world sizeof_U p c (world s)) as (Hpool & Hheap & _).
  assert (Hfree : forall x, In x fl ->
            Heap.load (heap (snd (construct sizeof_U p c (world s)))) x
            = Heap.load (heap (world s)) x).
  { intros x Hx. rewrite Hheap. apply load_overwrite_outside.
    assert (Hxin : In x (live s ++ fl)) by (apply in_or_app; now right).
    assert (Hne : x <> p).
    { intros ->. revert Hx.
      apply (NoDup_app_disjoint (live s));
        [apply (inv_nodup s fl Hinv) | exact Hp]. }
    pose proof (inv_apart s fl Hinv x p Hxin Hpin Hne). lia. }
  assert (Hblk : forall x, In x (blocks s) ->
            Heap.load (heap (snd (construct sizeof_U p c (world s)))) x
            = Heap.load (heap (world s)) x).
  { intros x Hx. rewrite Hheap. apply load_overwrite_outside.
    destruct (inv_slot_bounds s fl p Hinv Hpin) as (_ & b & Hb & Hlo & Hhi).
    unfold sizeof_pointer in Hlo.
    destruct (Z.eq_dec x b) as [->|Hne]; [lia|].
    destruct (inv_blocks_apart s fl Hinv x b Hx Hb Hne); lia. }
  destruct Hinv as [Hbok Hbap Hbnd Hbch Hcur Hfch Hnd Hsl Hap Hret].
  constructor; cbn [world live blocks returned]; rewrite ?Hpool; auto.
  - now apply (chain_frame (heap (world s))).
  - now apply (chain_frame (heap (world s))).
Qed.

Lemma deallocate_invariant (s : session) (fl : list Z) (p n : Z) :
  invariant s fl -> In p (live s) ->
  invariant (mkSession (deallocate p n (world s))
               (remove Z.eq_dec p (live s)) (blocks s) (returned s))
            (p :: fl).
Proof.
  intros Hinv Hp.
  assert (Hpin : In p (live s ++ fl)) by (apply in_or_app; now left).
  pose proof (inv_slot_not_block s fl p Hinv Hpin) as Hnb.
  pose proof (inv_slot_nonnull s fl p Hinv Hpin) as Hnn.
  assert (Hnf : ~ In p fl).
  { apply (NoDup_app_disjoint (live s));
      [apply (inv_nodup s fl Hinv) | exact Hp]. }
  assert (Hperm : Permutation (live s ++ fl)
                    (remove Z.eq_dec p (live s) ++ p :: fl)).
  { rewrite <- Permutation_middle.
    change (p :: remove Z.eq_dec p (live s) ++ fl)
      with ((p :: remove Z.eq_dec p (live s)) ++ fl).
    apply Permutation_app_tail, remove_permutation; [|exact Hp].
    eapply NoDup_app_remove_r. apply (inv_nodup s fl Hinv). }
  assert (Hback : forall a, In a (remove Z.eq_dec p (live s) ++ p :: fl) ->
                            In a (live s ++ fl)).
  { intros a. apply Permutation_in. now symmetry. }
  unfold deallocate.
  destruct (p =? nullptr) eqn:E; [apply Z.eqb_eq in E; contradiction|].
  destruct Hinv as [Hbok Hbap Hbnd Hbch Hcur Hfch Hnd Hsl Hap Hret].
  constructor; cbn [negb world live blocks returned pool heap
                    currentBlock_ currentSlot_ lastSlot_ freeSlots_]; auto.
  - now apply chain_store_other.
  - constructor; [exact Hnn|]. rewrite load_store_same.
    now apply chain_store_other.
  - eapply Permutation_NoDup; eassumption.
Qed.

Lemma pop_invariant (s : session) (fl : list Z) (n hint : Z) (sys : option Z) :
  invariant s fl -> freeSlots_ (pool (world s)) <> nullptr ->
  exists fl',
    invariant (mkSession (snd (allocate n hint sys (world s)))
                 (freeSlots_ (pool (world s)) :: live s)
                 (blocks s)
                 (freeSlots_ (pool (world s)) :: returned s)) fl'.
Proof.
  intros Hinv Hf.
  destruct (chain_nonnull_inv _ _ _ Hf (inv_free_chain s fl Hinv))
    as (fl' & -> & Hch).
  exists fl'. rewrite allocate_free_list by exact Hf.
  set (f := freeSlots_ (pool (world s))) in *.
  assert (Hperm : Permutation (live s ++ f :: fl') ((f :: live s) ++ fl')).
  { symmetry. apply Permutation_middle. }
  assert (Hback : forall a, In a ((f :: live s) ++ fl') ->
                            In a (live s ++ f :: fl')).
  { intros a. apply Permutation_in. now symmetry. }
  assert (Hfin : In f (live s ++ f :: fl')).
  { apply in_or_app. right. now left. }
  destruct Hinv as [Hbok Hbap Hbnd Hbch Hcur Hfch Hnd Hsl Hap Hret].
  constructor; cbn [snd set_pool world live blocks returned pool heap
                    currentBlock_ currentSlot_ lastSlot_ freeSlots_]; auto.
  - eapply Permutation_NoDup; eassumption.
  - constructor; [|exact Hret]. apply (Hsl f Hfin).
Qed.


(** The slot under the bump cursor lies a full slot away from every slot
    handed out so far. *)
Lemma bump_cursor_apart (s : session) (fl : list Z) (a : Z) :
  invariant s fl ->
  currentSlot_ (pool (world s)) < lastSlot_ (pool (world s)) ->
  In a (live s ++ fl) ->
  sizeof_slot <= Z.abs (a - currentSlot_ (pool (world s))).
Proof.
  intros Hinv Hlt Hin.
  pose proof (inv_current_block s fl Hinv) as Hcb.
  pose proof (inv_cursors s fl Hinv) as Hcur.
  destruct (inv_slots s fl Hinv a Hin) as (_ & b' & Hb' & Hlo & Hhi).
  pose proof (inv_blocks_apart s fl Hinv) as Hap.
  destruct (blocks s) as [|b bs]; [contradiction|].
  destruct Hcb as [Hcb _]. cbn in Hcur. destruct Hcur as (Hls & Hcs & _).
  unfold sizeof_pointer in *.
  destruct (b' =? currentBlock_ (pool (world s))) eqn:E.
  - lia.
  - apply Z.eqb_neq in E. rewrite Hcb in E.
    destruct (Hap b' b Hb' (or_introl eq_refl) E); lia.
Qed.

Lemma bump_invariant (s : session) :
  invariant s [] ->
  currentSlot_ (pool (world s)) < lastSlot_ (pool (world s)) ->
  invariant
    (mkSession
       (set_pool (world s)
          (mkPool (currentBlock_ (pool (world s)))
                  (wrap (currentSlot_ (pool (world s)) + sizeof_slot))
                  (lastSlot_ (pool (world s))) nullptr))
       (currentSlot_ (pool (world s)) :: live s)
       (blocks s)
       (currentSlot_ (pool (world s)) :: returned s)) [].
Proof.
  intros Hinv Hlt.
  pose proof (bump_cursor_apart s [] ) as Hnew.
  pose proof (inv_current_block s [] Hinv) as Hcb.
  pose proof sizeof_slot_ge_pointer as Hs8. unfold sizeof_pointer in Hs8.
  pose proof sizeof_slot_mod as Hsm.
  destruct Hinv as [Hbok Hbap Hbnd Hbch Hcur Hfch Hnd Hsl Hap Hret].
  assert (Hinv : invariant s []) by (constructor; assumption).
  specialize (fun a => Hnew a Hinv Hlt).
  destruct s as [[[cb cs ls fs] h ev] lv bs rt].
  unfold set_pool, cursors_ok in *.
  cbn [world pool heap events live blocks returned
       currentBlock_ currentSlot_ lastSlot_ freeSlots_] in *.
  rewrite app_nil_r in *.
  destruct bs as [|b bs]; [destruct Hcur; unfold nullptr in *; lia|].
  destruct Hcb as [-> Hbnn]. destruct Hcur as (Hls & Hcs & Hal).
  destruct (Hbok b (or_introl eq_refl)) as [Hbpos Hbend].
  unfold sizeof_pointer in *.
  rewrite wrap_small by lia.
  constructor;
    cbn [world pool heap events live blocks returned
         currentBlock_ currentSlot_ lastSlot_ freeSlots_]; auto;
    rewrite ?app_nil_r.
  - unfold cursors_ok, sizeof_pointer.
    cbn [currentSlot_ lastSlot_].
    split; [exact Hls|]. split; [lia|]. now apply aligned_add.
  - constructor.
  - constructor; [|exact Hnd]. intros Hin. specialize (Hnew cs Hin).
    rewrite Z.sub_diag in Hnew. cbn in Hnew. lia.
  - intros a [<-|Hin].
    + split; [exact Hal|]. exists b. split; [now left|].
      unfold in_block. cbn. rewrite Z.eqb_refl.
      unfold sizeof_pointer. lia.
    + destruct (Hsl a Hin) as (Ha & b' & Hb' & Hlo & Hhi).
      split; [exact Ha|]. exists b'. split; [exact Hb'|].
      unfold in_block in *. cbn in *. split; [exact Hlo|].
      destruct (b' =? b); lia.
  - intros a a' [<-|Hin] [<-|Hin'] Hne; try contradiction; auto.
    + specialize (Hnew a' Hin'). lia.
Qed.


Lemma allocateBlock_cursors (b : Z) (w : World) :
  0 < b -> b + BlockSize < ptr_modulus ->
  pool (snd (allocateBlock (Some b) w))
  = mkPool b (first_slot b) (b + BlockSize - sizeof_slot + 1)
           (freeSlots_ (pool w)).
Proof.
  intros Hpos Hend. cbn. unfold first_slot.
  pose proof sizeof_slot_ge_pointer as Hs8.
  pose proof sizeof_slot_ge_align as Hsa.
  pose proof alignof_slot_pos as Hap.
  unfold sizeof_pointer in *.
  assert (Hpad : 0 <= padPointer (b + 8) alignof_slot < alignof_slot).
  { unfold padPointer. apply Z.mod_pos_bound. exact Hap. }
  rewrite (wrap_small (b + 8)) by lia.
  rewrite !wrap_small by lia. reflexivity.
Qed.

Lemma grow_invariant (s : session) (b : Z) :
  invariant s [] -> block_ok b (blocks s) = true ->
  invariant (mkSession (snd (allocateBlock (Some b) (world s)))
               (live s) (b :: blocks s) (returned s)) [] /\
  first_slot b < b + BlockSize - sizeof_slot + 1.
Proof.
  intros Hinv Hok.
  destruct (block_ok_spec b (blocks s) Hok) as (Hpos & Hb8 & Hend & Hfresh).
  destruct (first_slot_spec b Hb8) as (Hfal & Hflo & Hfhi).
  pose proof sizeof_slot_ge_pointer as Hs8. unfold sizeof_pointer in *.
  assert (Hnew : ~ In b (blocks s)).
  { intros Hin. destruct (Hfresh b Hin); lia. }
  split; [|lia].
  pose proof (allocateBlock_cursors b (world s) Hpos Hend) as Hpool.
  pose proof (inv_slot_bounds s [] ) as Hbounds.
  specialize (fun a => Hbounds a Hinv).
  destruct Hinv as [Hbok Hbap Hbnd Hbch Hcur Hfch Hnd Hsl Hap Hret].
  apply chain_null_inv_head in Hfch.
  constructor; cbn [world live blocks returned]; auto.
  - intros b' [<-|Hin]; [split; assumption | now apply Hbok].
  - intros b1 b2 [<-|H1] [<-|H2] Hne; try contradiction; auto.
    destruct (Hfresh b1 H1); [now right | now left].
  - constructor; assumption.
  - rewrite Hpool. cbn. constructor; [unfold nullptr; lia|].
    rewrite load_store_same. now apply chain_store_other.
  - rewrite Hpool. unfold cursors_ok, sizeof_pointer.
    cbn [currentSlot_ lastSlot_]. split; [reflexivity|]. split; [lia|].
    exact Hfal.
  - rewrite Hpool. cbn [freeSlots_]. rewrite Hfch. constructor.
  - intros a Hin. destruct (Hbounds a Hin) as (Ha & b' & Hb' & Hlo & Hhi).
    split; [exact Ha|]. exists b'. split; [now right|].
    rewrite Hpool. unfold in_block. cbn [currentBlock_ currentSlot_].
    split; [exact Hlo|].
    destruct (b' =? b) eqn:E; [|exact Hhi].
    apply Z.eqb_eq in E. subst b'. contradiction.
Qed.


Lemma grows_true (m : MemoryPool) :
  grows m = true <-> freeSlots_ m = nullptr /\ lastSlot_ m <= currentSlot_ m.
Proof.
  unfold grows. rewrite andb_true_iff, Z.eqb_eq, Z.geb_le. reflexivity.
Qed.

Lemma allocate_invariant
  (s s' : session) (fl : list Z) (n hint : Z) (sys : option Z) :
  invariant s fl -> step (OpAllocate n hint sys) s = Some s' ->
  exists fl', invariant s' fl'.
Proof.
  intros Hinv Hstep. cbn [step] in Hstep.
  destruct (Z.eq_dec (freeSlots_ (pool (world s))) nullptr) as [Hf|Hf].
  - (* the free list is empty *)
    assert (fl = []) as ->.
    { pose proof (inv_free_chain s fl Hinv) as Hc. rewrite Hf in Hc.
      now apply chain_null_inv in Hc. }
    exists [].
    destruct (Z_lt_le_dec (currentSlot_ (pool (world s)))
                          (lastSlot_ (pool (world s)))) as [Hlt|Hge].
    + assert (Hg : grows (pool (world s)) = false).
      { destruct (grows (pool (world s))) eqn:G; [|reflexivity].
        apply grows_true in G. lia. }
      rewrite Hg in Hstep.
      rewrite (allocate_bump n hint sys _ Hf Hlt) in Hstep.
      assert (Hbad : match sys with
                     | Some b => false && negb (block_ok b (blocks s))
                     | None => false
                     end = false) by (destruct sys; reflexivity).
      rewrite Hbad in Hstep. injection Hstep as <-.
      now apply bump_invariant.
    + assert (Hg : grows (pool (world s)) = true)
        by (apply grows_true; auto).
      rewrite Hg in Hstep.
      rewrite (allocate_grow n hint sys _ Hf Hge) in Hstep.
      destruct sys as [b|].
      * cbn [andb] in Hstep.
        destruct (block_ok b (blocks s)) eqn:Hok; [|discriminate].
        cbn [negb] in Hstep.
        destruct (grow_invariant s b Hinv Hok) as [Hginv Hroom].
        destruct (block_ok_spec b (blocks s) Hok) as (Hpos & _ & Hend & _).
        pose proof (allocateBlock_cursors b (world s) Hpos Hend) as Hpool.
        pose proof (bump_invariant _ Hginv) as Hb.
        cbn [world live blocks returned] in Hb.
        rewrite Hpool in Hb. cbn [currentBlock_ currentSlot_ lastSlot_] in Hb.
        specialize (Hb Hroom).
        destruct (allocateBlock (Some b) (world s)) as [r g] eqn:Hab.
        assert (r = Returned tt) as -> by (cbn in Hab; congruence).
        cbn [snd] in Hpool, Hb.
        injection Hstep as <-. rewrite Hpool.
        cbn [pool set_pool currentBlock_ currentSlot_ lastSlot_ freeSlots_].
        exact Hb.
      * cbn in Hstep. injection Hstep as <-. now destruct s.
  - (* a freed slot is reused *)
    assert (Hg : grows (pool (world s)) = false).
    { destruct (grows (pool (world s))) eqn:G; [|reflexivity].
      apply grows_true in G. tauto. }
    rewrite Hg in Hstep.
    assert (Hbad : match sys with
                   | Some b => false && negb (block_ok b (blocks s))
                   | None => false
                   end = false) by (destruct sys; reflexivity).
    rewrite Hbad in Hstep.
    destruct (pop_invariant s fl n hint sys Hinv Hf) as [fl' Hpop].
    rewrite (allocate_free_list n hint sys _ Hf) in Hstep, Hpop.
    injection Hstep as <-. exists fl'. exact Hpop.
Qed.

Lemma step_invariant (o : op) (s s' : session) (fl : list Z) :
  invariant s fl -> step o s = Some s' -> exists fl', invariant s' fl'.
Proof.
  intros Hinv Hstep. destruct o as [n hint sys | p n | sizeof_U p c].
  - eapply allocate_invariant; eassumption.
  - cbn [step] in Hstep.
    destruct (is_live p s) eqn:Hl; [|discriminate].
    apply is_live_In in Hl. injection Hstep as <-.
    exists (p :: fl). now apply deallocate_invariant.
  - cbn [step] in Hstep.
    destruct (is_live p s && (sizeof_U <=? sizeof_slot)) eqn:Hl;
      [|discriminate].
    apply andb_prop in Hl. destruct Hl as [Hl Hfit].
    apply is_live_In in Hl. apply Z.leb_le in Hfit. injection Hstep as <-.
    exists fl. now apply construct_invariant.
Qed.

Lemma run_invariant (ops : list op) (s s' : session) (fl : list Z) :
  invariant s fl -> run ops s = Some s' -> exists fl', invariant s' fl'.
Proof.
  revert s fl. induction ops as [|o ops IH]; intros s fl Hinv Hrun.
  - injection Hrun as <-. eauto.
  - cbn [run] in Hrun. destruct (step o s) as [s1|] eqn:Hstep; [|discriminate].
    destruct (step_invariant o s s1 fl Hinv Hstep) as [fl1 Hinv1].
    eapply IH; eassumption.
Qed.


(** ** What every session guarantees *)

(** C5: in every sequence of calls on a pool, every address [allocate]
    returns is a multiple of [alignof(T)] (indeed of the slot's alignment):
    the first slot of a block because of the body padding, the later ones
    because the slot size is a multiple of the alignment, reused ones
    because they were returned before. *)
Theorem allocate_aligned (h : Heap.t) (ops : list op) (s : session) :
  run ops (start h) = Some s ->
  Forall (fun p => p mod alignof_T = 0 /\ p mod alignof_slot = 0) (returned s).
Proof.
  intros Hrun.
  destruct (run_invariant ops (start h) s [] (invariant_start h) Hrun)
    as [fl Hinv].
  pose proof (inv_returned s fl Hinv) as Hret.
  eapply Forall_impl; [|exact Hret].
  intros p Hp. split; [now apply aligned_for_T | exact Hp].
Qed.

(** C7: in every sequence of calls on a pool, no address is live twice and
    any two live addresses are at least [sizeof(Slot_)] bytes apart, wherever
    they came from (the same block, different blocks, the free list). *)
Theorem live_slots_apart (h : Heap.t) (ops : list op) (s : session) :
  run ops (start h) = Some s ->
  NoDup (live s) /\
  forall p q, In p (live s) -> In q (live s) -> p <> q ->
    sizeof_slot <= Z.abs (p - q).
Proof.
  intros Hrun.
  destruct (run_invariant ops (start h) s [] (invariant_start h) Hrun)
    as [fl Hinv].
  exact (inv_live_apart s fl Hinv).
Qed.

(** C4: for every address [p] that a pool returned and that has not been
    given back, [deallocate(p)] followed at once by [allocate()] returns [p]
    itself, with the cursors back to what they were before the two calls;
    [deallocate] wrote the old free-list head into the slot. *)
Theorem free_then_allocate_reuses
  (h : Heap.t) (ops : list op) (s : session) (p n n' hint : Z)
  (sys : option Z) :
  run ops (start h) = Some s -> In p (live s) ->
  freeSlots_ (pool (deallocate p n (world s))) = p /\
  allocate n' hint sys (deallocate p n (world s)) =
    (Returned p,
     mkWorld (pool (world s))
             (Heap.store (heap (world s)) p (freeSlots_ (pool (world s))))
             (events (world s))) /\
  exists s',
    run [OpDeallocate p n; OpAllocate n' hint sys] s = Some s' /\
    hd_error (returned s') = Some p /\ hd_error (live s') = Some p.
Proof.
  intros Hrun Hp.
  destruct (run_invariant ops (start h) s [] (invariant_start h) Hrun)
    as [fl Hinv].
  assert (Hnn : p <> nullptr).
  { apply (inv_slot_nonnull s fl p Hinv). apply in_or_app. now left. }
  pose proof (deallocate_allocate p n n' hint sys (world s) Hnn) as Hda.
  assert (Hhead : freeSlots_ (pool (deallocate p n (world s))) = p).
  { unfold deallocate. apply Z.eqb_neq in Hnn. now rewrite Hnn. }
  split; [exact Hhead|]. split; [exact Hda|].
  cbn [run step]. apply is_live_In in Hp. rewrite Hp.
  cbn [world live blocks returned]. rewrite Hda.
  assert (Hg : grows (pool (deallocate p n (world s))) = false).
  { unfold grows. rewrite Hhead. apply Z.eqb_neq in Hnn. now rewrite Hnn. }
  rewrite Hg.
  assert (Hbad : match sys with
                 | Some b => false && negb (block_ok b (blocks s))
                 | None => false
                 end = false) by (destruct sys; reflexivity).
  rewrite Hbad. eexists. split; [reflexivity|]. split; reflexivity.
Qed.


(** ** Filling a block *)

Lemma slots_from_S (a : Z) (k : nat) :
  slots_from a (S k) = a :: slots_from (a + sizeof_slot) k.
Proof.
  unfold slots_from. cbn [seq map]. f_equal; [lia|].
  rewrite <- seq_shift, map_map. apply map_ext. intros i. lia.
Qed.

Lemma slots_from_In (a x : Z) (k : nat) :
  In x (slots_from a k) ->
  exists i, 0 <= i < Z.of_nat k /\ x = a + i * sizeof_slot.
Proof.
  unfold slots_from. rewrite in_map_iff. intros (i & <- & Hin).
  apply in_seq in Hin. exists (Z.of_nat i). split; [lia | reflexivity].
Qed.

(** With an empty free list, [j] allocations that fit below the limit cursor
    are served by the bump cursor alone, whatever the system allocator would
    have done. *)
Lemma bump_run (oracles : list (option Z)) (w : World) :
  freeSlots_ (pool w) = nullptr ->
  0 <= currentSlot_ (pool w) ->
  currentSlot_ (pool w) + Z.of_nat (length oracles) * sizeof_slot
    < lastSlot_ (pool w) + sizeof_slot ->
  lastSlot_ (pool w) + sizeof_slot <= ptr_modulus ->
  allocate_each oracles w =
    (map Returned (slots_from (currentSlot_ (pool w)) (length oracles)),
     set_pool w
       (mkPool (currentBlock_ (pool w))
               (currentSlot_ (pool w)
                + Z.of_nat (length oracles) * sizeof_slot)
               (lastSlot_ (pool w)) nullptr)).
Proof.
  pose proof sizeof_slot_ge_pointer as Hs8. unfold sizeof_pointer in Hs8.
  revert w. induction oracles as [|sys oracles IH]; intros w Hf H0 Hfit Hmax.
  - cbn. rewrite Z.add_0_r. destruct w as [[cb cs ls fs] h ev].
    cbn in *. now subst fs.
  - cbn [length] in *. rewrite Nat2Z.inj_succ in *.
    cbn [allocate_each].
    assert (Hlt : currentSlot_ (pool w) < lastSlot_ (pool w)) by nia.
    rewrite (allocate_bump 1 0 sys w Hf Hlt).
    rewrite wrap_small by lia.
    rewrite IH; unfold set_pool;
      cbn [pool currentBlock_ currentSlot_ lastSlot_ freeSlots_ heap events];
      [ | reflexivity | lia | nia | lia ].
    rewrite slots_from_S. cbn [map]. do 3 f_equal. lia.
Qed.


Lemma allocate_grow_ok (n hint b : Z) (w : World) :
  grows (pool w) = true -> 0 < b -> b + BlockSize < ptr_modulus ->
  allocate n hint (Some b) w =
    (Returned (first_slot b),
     mkWorld (mkPool b (wrap (first_slot b + sizeof_slot))
                     (b + BlockSize - sizeof_slot + 1) nullptr)
             (Heap.store (heap w) b (currentBlock_ (pool w)))
             (events w)).
Proof.
  intros Hg Hpos Hend. apply grows_true in Hg. destruct Hg as [Hf Hge].
  rewrite (allocate_grow n hint (Some b) w Hf Hge).
  pose proof (allocateBlock_cursors b w Hpos Hend) as Hpool.
  destruct (allocateBlock (Some b) w) as [r g] eqn:Hab.
  assert (r = Returned tt) as -> by (cbn in Hab; congruence).
  assert (Hh : heap g = Heap.store (heap w) b (currentBlock_ (pool w)))
    by (cbn in Hab; injection Hab as <-; reflexivity).
  assert (He : events g = events w)
    by (cbn in Hab; injection Hab as <-; reflexivity).
  cbn [snd] in Hpool. unfold set_pool. rewrite Hpool, Hh, He.
  cbn [currentBlock_ currentSlot_ lastSlot_ freeSlots_]. reflexivity.
Qed.

(** C6: let the block at [b1] hold exactly [k] slots after its leading word
    and the body padding.  Then the first [k] allocations of a pool that got
    this block return its [k] slots in order, whatever the system allocator
    would have done after the first one; the current block is still [b1]
    and the bump cursor has reached the limit cursor.  Allocation [k+1]
    therefore grows: it links the next block [b2] in front of [b1] and
    returns its first slot, which is aligned and differs from all [k]
    addresses returned before. *)
Theorem growth_after_block_is_full
  (h : Heap.t) (ev : list event) (b1 b2 : Z) (k : nat)
  (rest : list (option Z)) :
  block_ok b1 [] = true -> block_ok b2 [b1] = true ->
  Z.of_nat k * sizeof_slot <= b1 + BlockSize - first_slot b1
    < (Z.of_nat k + 1) * sizeof_slot ->
  S (length rest) = k ->
  let w0 := mkWorld MemoryPool_new h ev in
  let rs := fst (allocate_each (Some b1 :: rest) w0) in
  let wk := snd (allocate_each (Some b1 :: rest) w0) in
  rs = map Returned (slots_from (first_slot b1) k) /\
  currentBlock_ (pool wk) = b1 /\
  grows (pool wk) = true /\
  allocate 1 0 None wk = (BadAlloc, wk) /\
  exists w',
    allocate 1 0 (Some b2) wk = (Returned (first_slot b2), w') /\
    currentBlock_ (pool w') = b2 /\
    Heap.load (heap w') b2 = b1 /\
    first_slot b2 mod alignof_T = 0 /\
    ~ In (first_slot b2) (slots_from (first_slot b1) k).
Proof.
  intros Hok1 Hok2 Hk Hlen w0 rs wk.
  destruct (block_ok_spec b1 [] Hok1) as (Hpos1 & Hal1 & Hend1 & _).
  destruct (block_ok_spec b2 [b1] Hok2) as (Hpos2 & Hal2 & Hend2 & Hfresh).
  destruct (first_slot_spec b1 Hal1) as (Hf1a & Hf1lo & Hf1hi).
  destruct (first_slot_spec b2 Hal2) as (Hf2a & Hf2lo & Hf2hi).
  pose proof sizeof_slot_ge_pointer as Hs8. unfold sizeof_pointer in *.
  assert (Hrun : allocate_each (Some b1 :: rest) w0 =
    (map Returned (slots_from (first_slot b1) k),
     mkWorld (mkPool b1 (first_slot b1 + Z.of_nat k * sizeof_slot)
                     (b1 + BlockSize - sizeof_slot + 1) nullptr)
             (Heap.store h b1 nullptr) ev)).
  { cbn [allocate_each].
    rewrite (allocate_grow_ok 1 0 b1 w0 eq_refl Hpos1 Hend1).
    rewrite wrap_small by lia.
    rewrite bump_run;
      cbn [pool currentBlock_ currentSlot_ lastSlot_ freeSlots_];
      [ | reflexivity | lia | nia | lia ].
    subst k. rewrite slots_from_S. unfold set_pool.
    cbn [map pool heap events currentBlock_ currentSlot_ lastSlot_
         freeSlots_ w0 MemoryPool_new].
    do 3 f_equal. lia. }
  subst rs wk. rewrite Hrun. cbn [fst snd].
  set (wk := mkWorld _ _ _).
  assert (Hg : grows (pool wk) = true).
  { apply grows_true. cbn. split; [reflexivity | lia]. }
  split; [reflexivity|]. split; [reflexivity|]. split; [exact Hg|].
  split; [now apply allocate_throws|].
  eexists. split; [now apply allocate_grow_ok|].
  split; [reflexivity|]. split; [apply load_store_same|].
  split; [now apply aligned_for_T|].
  intros Hin. apply slots_from_In in Hin. destruct Hin as (i & Hi & E).
  destruct (Hfresh b1 (or_introl eq_refl)); nia.
Qed.


(** * Further properties of the code *)

(** ** What a call leaves alone *)

Lemma allocate_events (n hint : Z) (sys : option Z) (w : World) :
  events (snd (allocate n hint sys w)) = events w.
Proof.
  unfold allocate.
  destruct (freeSlots_ (pool w) =? nullptr); cbn [negb]; [|reflexivity].
  destruct (currentSlot_ (pool w) >=? lastSlot_ (pool w)); [|reflexivity].
  destruct sys; reflexivity.
Qed.

Lemma allocate_heap (n hint : Z) (sys : option Z) (w : World) :
  heap (snd (allocate n hint sys w)) =
    match sys with
    | Some b =>
        if grows (pool w)
        then Heap.store (heap w) b (currentBlock_ (pool w))
        else heap w
    | None => heap w
    end.
Proof.
  unfold allocate, grows.
  destruct (freeSlots_ (pool w) =? nullptr); cbn [negb andb];
    [|destruct sys; reflexivity].
  destruct (currentSlot_ (pool w) >=? lastSlot_ (pool w));
    destruct sys; reflexivity.
Qed.

Lemma step_returned (o : op) (s s' : session) :
  step o s = Some s' ->
  incl (blocks s) (blocks s') /\
  (returned s' = returned s \/
   exists p, returned s' = p :: returned s /\ In p (live s')).
Proof.
  destruct o as [n hint sys | p n | sizeof_U p c]; cbn [step]; intros H.
  - destruct (match sys with
              | Some b => grows (pool (world s)) && negb (block_ok b (blocks s))
              | None => false
              end); [discriminate|].
    destruct (allocate n hint sys (world s)) as [[p|] w'].
    + injection H as <-. cbn [blocks returned live]. split.
      * destruct (grows (pool (world s)));
          [apply incl_tl|]; apply incl_refl.
      * right. exists p. split; [reflexivity | now left].
    + injection H as <-. split; [apply incl_refl | now left].
  - destruct (is_live p s); [|discriminate]. injection H as <-.
    split; [apply incl_refl | now left].
  - destruct (is_live p s && (sizeof_U <=? sizeof_slot)); [|discriminate].
    injection H as <-. split; [apply incl_refl | now left].
Qed.

(** A property of sessions that every call keeps, given the invariant, holds
    at the end of every run. *)
Lemma run_preserves (Q : session -> Prop) :
  (forall o s s' fl, invariant s fl -> Q s -> step o s = Some s' -> Q s') ->
  forall ops s s' fl, invariant s fl -> Q s -> run ops s = Some s' -> Q s'.
Proof.
  intros Hstep ops. induction ops as [|o ops IH]; intros s s' fl Hinv HQ Hrun.
  - injection Hrun as <-. exact HQ.
  - cbn [run] in Hrun. destruct (step o s) as [s1|] eqn:E; [|discriminate].
    destruct (step_invariant o s s1 fl Hinv E) as [fl1 Hinv1].
    apply (IH s1 s' fl1 Hinv1); [|exact Hrun].
    exact (Hstep o s s1 fl Hinv HQ E).
Qed.

(** Every address [allocate] has returned is non-null and names a slot that
    lies wholly inside one block obtained from [operator new], behind the
    block's leading back-reference word. *)
Theorem returned_slots_inside_blocks
  (h : Heap.t) (ops : list op) (s : session) :
  run ops (start h) = Some s ->
  Forall (fun p =>
            p <> nullptr /\
            exists b, In b (blocks s) /\
              b + sizeof_pointer <= p /\ p + sizeof_slot <= b + BlockSize)
         (returned s).
Proof.
  intros Hrun.
  apply (run_preserves
           (fun s => Forall (fun p =>
              p <> nullptr /\
              exists b, In b (blocks s) /\
                b + sizeof_pointer <= p /\ p + sizeof_slot <= b + BlockSize)
              (returned s)))
    with (ops := ops) (s := start h) (fl := []);
    [ | apply invariant_start | constructor | exact Hrun ].
  clear Hrun s. intros o s s' fl Hinv HQ Hstep.
  destruct (step_invariant o s s' fl Hinv Hstep) as [fl' Hinv'].
  destruct (step_returned o s s' Hstep) as [Hincl Hret].
  assert (Hold : Forall (fun p =>
            p <> nullptr /\
            exists b, In b (blocks s') /\
              b + sizeof_pointer <= p /\ p + sizeof_slot <= b + BlockSize)
            (returned s)).
  { eapply Forall_impl; [|exact HQ]. intros p (Hp & b & Hb & Hlo & Hhi).
    split; [exact Hp|]. exists b. split; [now apply Hincl | now split]. }
  destruct Hret as [-> | (p & -> & Hp)]; [exact Hold|].
  constructor; [|exact Hold].
  assert (Hin : In p (live s' ++ fl')) by (apply in_or_app; now left).
  split; [apply (inv_slot_nonnull s' fl' p Hinv' Hin)|].
  apply (inv_slot_bounds s' fl' p Hinv' Hin).
Qed.

Lemma step_events (o : op) (s s' : session) :
  step o s = Some s' ->
  events (world s') = events (world s) \/
  exists p, events (world s') = events (world s) ++ [Constructed p].
Proof.
  destruct o as [n hint sys | p n | sizeof_U p c]; cbn [step]; intros Hstep.
  - destruct (match sys with
              | Some b =>
                  grows (pool (world s)) && negb (block_ok b (blocks s))
              | None => false
              end); [discriminate|].
    pose proof (allocate_events n hint sys (world s)) as He.
    destruct (allocate n hint sys (world s)) as [[p|] w'];
      injection Hstep as <-; left; exact He.
  - destruct (is_live p s); [|discriminate]. injection Hstep as <-.
    left. cbn [world]. unfold deallocate.
    destruct (negb (p =? nullptr)); reflexivity.
  - destruct (is_live p s && (sizeof_U <=? sizeof_slot)); [|discriminate].
    injection Hstep as <-. cbn [world].
    destruct (construct_world sizeof_U p c (world s)) as (_ & _ & ->).
    destruct (completes c); [right; now exists p | left; apply app_nil_r].
Qed.

(** Between construction and destruction a pool gives nothing back to the
    system: no call of a session releases a block, and the only events are
    the constructions the caller asked for. *)
Theorem no_release_before_teardown
  (h : Heap.t) (ops : list op) (s : session) :
  run ops (start h) = Some s ->
  Forall (fun e => exists p, e = Constructed p) (events (world s)) /\
  forall b, ~ In (Deleted b) (events (world s)).
Proof.
  intros Hrun.
  assert (Hall : Forall (fun e => exists p, e = Constructed p)
                        (events (world s))).
  { assert (Hgen : forall ops s0 s1,
               Forall (fun e => exists p, e = Constructed p)
                      (events (world s0)) ->
               run ops s0 = Some s1 ->
               Forall (fun e => exists p, e = Constructed p)
                      (events (world s1))).
    { clear. induction ops as [|o ops IH]; intros s0 s1 H0 Hrun.
      - injection Hrun as <-. exact H0.
      - cbn [run] in Hrun.
        destruct (step o s0) as [s'|] eqn:E; [|discriminate].
        apply (IH s' s1); [|exact Hrun].
        destruct (step_events o s0 s' E) as [-> | [p ->]]; [exact H0|].
        apply Forall_app. split; [exact H0|]. constructor; eauto. }
    apply (Hgen ops (start h) s); [constructor | exact Hrun]. }
  split; [exact Hall|].
  intros b Hin. rewrite Forall_forall in Hall.
  destruct (Hall _ Hin) as [p Hp]. discriminate Hp.
Qed.


(** ** Teardown *)

(** Destroying a pool after any session releases exactly the blocks
    [operator new] handed out, each once, newest first; the loop needs no
    more iterations than there are blocks. *)
Theorem destructor_releases_each_block_once
  (h : Heap.t) (ops : list op) (s : session) (fuel : nat) :
  run ops (start h) = Some s -> (length (blocks s) <= fuel)%nat ->
  NoDup (blocks s) /\
  release_chain fuel (heap (world s)) (currentBlock_ (pool (world s)))
    = Some (blocks s) /\
  MemoryPool_destroy fuel (world s)
    = Some (mkWorld (pool (world s)) (heap (world s))
                    (events (world s) ++ map Deleted (blocks s))).
Proof.
  intros Hrun Hfuel.
  destruct (run_invariant ops (start h) s [] (invariant_start h) Hrun)
    as [fl Hinv].
  pose proof (chain_release _ _ _ fuel (inv_block_chain s fl Hinv) Hfuel)
    as Hrel.
  split; [apply (inv_blocks_nodup s fl Hinv)|]. split; [exact Hrel|].
  unfold MemoryPool_destroy. now rewrite Hrel.
Qed.

(** ** The caller's data *)

(** No call writes into another live slot.  For every live address [a],
    every word that lies inside the slot at [a] (so every byte of the slot)
    is left as it is by [allocate] (growth writes only the new block's
    leading word), and by [deallocate(p)] and [construct(p)] for any other
    address [p], whatever the constructor writes into its own slot and
    whether or not it throws. *)
Theorem calls_preserve_live_slots
  (h : Heap.t) (ops : list op) (s s' : session) (o : op) (a x : Z) :
  run ops (start h) = Some s -> step o s = Some s' -> In a (live s) ->
  match o with
  | OpAllocate _ _ _ => True
  | OpDeallocate p _ => a <> p
  | OpConstruct _ p _ => a <> p
  end ->
  a <= x -> x + sizeof_pointer <= a + sizeof_slot ->
  Heap.load (heap (world s')) x = Heap.load (heap (world s)) x.
Proof.
  intros Hrun Hstep Ha Hother Hlo Hhi.
  destruct (run_invariant ops (start h) s [] (invariant_start h) Hrun)
    as [fl Hinv].
  assert (Hin : In a (live s ++ fl)) by (apply in_or_app; now left).
  pose proof sizeof_slot_ge_pointer as Hs. unfold sizeof_pointer in *.
  destruct o as [n hint sys | p n | sizeof_U p c]; cbn [step] in Hstep.
  - destruct sys as [b|].
    + destruct (grows (pool (world s)) && negb (block_ok b (blocks s)))
        eqn:Hbad; [discriminate|].
      pose proof (allocate_heap n hint (Some b) (world s)) as Hh.
      assert (Hw : heap (world s') = heap (snd (allocate n hint (Some b)
                                                  (world s)))).
      { destruct (allocate n hint (Some b) (world s)) as [[p|] w'];
          injection Hstep as <-; reflexivity. }
      rewrite Hw, Hh.
      destruct (grows (pool (world s))) eqn:Hg; [|reflexivity].
      cbn [andb] in Hbad. apply negb_false_iff in Hbad.
      destruct (block_ok_spec b (blocks s) Hbad) as (_ & _ & _ & Hfresh).
      destruct (inv_slot_bounds s fl a Hinv Hin) as (_ & b' & Hb' & Hlo' & Hhi').
      unfold sizeof_pointer in *.
      apply load_store_other.
      destruct (Hfresh b' Hb'); lia.
    + pose proof (allocate_heap n hint None (world s)) as Hh.
      destruct (allocate n hint None (world s)) as [[p|] w'];
        injection Hstep as <-; cbn [world snd] in *; now rewrite Hh.
  - destruct (is_live p s) eqn:Hl; [|discriminate]. injection Hstep as <-.
    apply is_live_In in Hl.
    assert (Hpin : In p (live s ++ fl)) by (apply in_or_app; now left).
    pose proof (inv_apart s fl Hinv a p Hin Hpin Hother) as Hap.
    cbn [world]. unfold deallocate.
    destruct (negb (p =? nullptr)); [|reflexivity].
    cbn [heap]. apply load_store_other. lia.
  - destruct (is_live p s && (sizeof_U <=? sizeof_slot)) eqn:Hl;
      [|discriminate].
    apply andb_prop in Hl. destruct Hl as [Hl Hfit].
    apply is_live_In in Hl. apply Z.leb_le in Hfit. injection Hstep as <-.
    assert (Hpin : In p (live s ++ fl)) by (apply in_or_app; now left).
    pose proof (inv_apart s fl Hinv a p Hin Hpin Hother) as Hap.
    cbn [world].
    destruct (construct_world sizeof_U p c (world s)) as (_ & -> & _).
    apply load_overwrite_outside. lia.
Qed.

Lemma kept_address_not_returned
  (ops' : list op) (s s' : session) (fl : list Z) (p : Z) :
  invariant s fl -> In p (live s) ->
  (forall n, ~ In (OpDeallocate p n) ops') ->
  run ops' s = Some s' ->
  In p (live s') /\
  exists new, returned s' = new ++ returned s /\ ~ In p new.
Proof.
  intros Hinv Hp Hkeep Hrun'.
  revert s fl Hinv Hp Hrun'.
  induction ops' as [|o ops' IH]; intros s fl Hinv Hp Hrun'.
  - injection Hrun' as <-. split; [exact Hp|]. now exists [].
  - cbn [run] in Hrun'. destruct (step o s) as [s1|] eqn:Hstep; [|discriminate].
    destruct (step_invariant o s s1 fl Hinv Hstep) as [fl1 Hinv1].
    assert (Hkeep' : forall n, ~ In (OpDeallocate p n) ops').
    { intros n Hin. apply (Hkeep n). now right. }
    assert (Hstay : In p (live s1) /\
                    (returned s1 = returned s \/
                     exists q, returned s1 = q :: returned s /\ q <> p)).
    { destruct o as [n hint sys | q n | sizeof_U q c]; cbn [step] in Hstep.
      - destruct (match sys with
                  | Some b =>
                      grows (pool (world s)) && negb (block_ok b (blocks s))
                  | None => false
                  end); [discriminate|].
        destruct (allocate n hint sys (world s)) as [[q|] w'];
          injection Hstep as <-; cbn [live returned] in *.
        + split; [now right|]. right. exists q. split; [reflexivity|].
          intros ->. destruct (inv_live_apart _ fl1 Hinv1) as [Hnd _].
          cbn [live] in Hnd. inversion Hnd. contradiction.
        + split; [exact Hp | now left].
      - destruct (is_live q s); [|discriminate]. injection Hstep as <-.
        cbn [live returned]. split; [|now left].
        apply in_in_remove; [|exact Hp].
        intros ->. apply (Hkeep n). now left.
      - destruct (is_live q s && (sizeof_U <=? sizeof_slot)); [|discriminate].
        injection Hstep as <-. split; [exact Hp | now left]. }
    destruct Hstay as [Hp1 Hret1].
    destruct (IH Hkeep' s1 fl1 Hinv1 Hp1 Hrun') as (Hlive & new & Hnew & Hnot).
    split; [exact Hlive|].
    destruct Hret1 as [E | (q & E & Hq)]; rewrite E in Hnew.
    + now exists new.
    + exists (new ++ [q]). split.
      * rewrite <- app_assoc. exact Hnew.
      * intros Hin. apply in_app_or in Hin.
        destruct Hin as [Hin | [-> | []]]; [now apply Hnot | now apply Hq].
Qed.

(** An address that stays live is never handed out again: as long as the
    caller does not give [p] back, no later [allocate] returns [p], whatever
    else is allocated, given back and constructed in between. *)
Theorem live_address_not_returned_again
  (h : Heap.t) (ops ops' : list op) (s s' : session) (p : Z) :
  run ops (start h) = Some s -> In p (live s) ->
  (forall n, ~ In (OpDeallocate p n) ops') ->
  run ops' s = Some s' ->
  In p (live s') /\
  exists new, returned s' = new ++ returned s /\ ~ In p new.
Proof.
  intros Hrun Hp Hkeep Hrun'.
  destruct (run_invariant ops (start h) s [] (invariant_start h) Hrun)
    as [fl Hinv].
  now apply (kept_address_not_returned ops' s s' fl p).
Qed.

(** ** Construction by copy *)

(** A pool copy-constructed from any pool (of the same or of another element
    type) owns nothing: destroying it releases no block, its first
    [allocate] has to grow a block of its own, fails if [operator new]
    fails, and otherwise returns the first slot of the new block. *)
Theorem copy_is_fresh_pool
  (A : MemoryPool) (h : Heap.t) (ev : list event) (n hint b : Z) (fuel : nat) :
  0 < b -> b + BlockSize < ptr_modulus ->
  MemoryPool_destroy fuel (mkWorld (MemoryPool_copy A) h ev)
    = Some (mkWorld (MemoryPool_copy A) h ev) /\
  allocate n hint None (mkWorld (MemoryPool_copy A) h ev)
    = (BadAlloc, mkWorld (MemoryPool_copy A) h ev) /\
  fst (allocate n hint (Some b) (mkWorld (MemoryPool_copy A) h ev))
    = Returned (first_slot b) /\
  currentBlock_ (pool (snd (allocate n hint (Some b)
                              (mkWorld (MemoryPool_copy A) h ev)))) = b /\
  Heap.load (heap (snd (allocate n hint (Some b)
                          (mkWorld (MemoryPool_copy A) h ev)))) b = nullptr.
Proof.
  intros Hpos Hend.
  split; [now apply destroy_without_blocks|].
  split; [now apply allocate_throws|].
  rewrite (allocate_grow_ok n hint b (mkWorld (MemoryPool_copy A) h ev)
             eq_refl Hpos Hend).
  cbn [fst snd].
  split; [reflexivity|]. split; [reflexivity|]. apply load_store_same.
Qed.

(** ** Move assignment *)


(** ** Capacity *)

(** The static assertion is what makes room in every block: a block that
    [operator new] returns pointer-aligned has its first slot aligned, behind
    the leading word and wholly inside the block, and [allocateBlock] leaves
    the bump cursor on it, below the limit cursor. *)
Theorem block_holds_a_slot (b : Z) (w : World) :
  0 < b -> b mod alignof_pointer = 0 -> b + BlockSize < ptr_modulus ->
  currentSlot_ (pool (snd (allocateBlock (Some b) w))) = first_slot b /\
  first_slot b mod alignof_slot = 0 /\
  b + sizeof_pointer <= first_slot b < b + sizeof_pointer + alignof_slot /\
  first_slot b + sizeof_slot <= b + BlockSize /\
  currentSlot_ (pool (snd (allocateBlock (Some b) w)))
    < lastSlot_ (pool (snd (allocateBlock (Some b) w))).
Proof.
  intros Hpos Hal Hend.
  destruct (first_slot_spec b Hal) as (Ha & Hlo & Hhi).
  rewrite (allocateBlock_cursors b w Hpos Hend).
  cbn [currentSlot_ lastSlot_].
  assert (Hpad : 0 <= padPointer (b + sizeof_pointer) alignof_slot
                 < alignof_slot).
  { unfold padPointer. apply Z.mod_pos_bound, alignof_slot_pos. }
  repeat split; try assumption; unfold first_slot in *; lia.
Qed.

(** [max_size()] is computed without wrap-around: it is the product of the
    slots counted per block and the number of blocks the address space can
    hold, it is at least 1, and that many slots fit into the address space.
    The per-block count is an upper bound on what any block really
    serves. *)
Theorem max_size_exact :
  BlockSize < ptr_modulus ->
  max_size = (BlockSize - sizeof_pointer) / sizeof_slot
             * ((ptr_modulus - 1) / BlockSize) /\
  1 <= max_size /\
  max_size * sizeof_slot < ptr_modulus /\
  forall b k, 0 <= k -> first_slot b + k * sizeof_slot <= b + BlockSize ->
    k <= (BlockSize - sizeof_pointer) / sizeof_slot.
Proof.
  intros Hsz.
  pose proof sizeof_slot_ge_pointer as Hs8. unfold sizeof_pointer in *.
  assert (Hs : 0 < sizeof_slot) by lia.
  assert (HB : 0 < BlockSize) by lia.
  set (q := (BlockSize - 8) / sizeof_slot).
  set (m := (ptr_modulus - 1) / BlockSize).
  assert (Hq : q * sizeof_slot <= BlockSize - 8).
  { subst q. rewrite Z.mul_comm. apply Z.mul_div_le. exact Hs. }
  assert (Hm : m * BlockSize <= ptr_modulus - 1).
  { subst m. rewrite Z.mul_comm. apply Z.mul_div_le. exact HB. }
  assert (Hq1 : 1 <= q).
  { subst q. apply Z.div_le_lower_bound; lia. }
  assert (Hm1 : 1 <= m).
  { subst m. apply Z.div_le_lower_bound; lia. }
  assert (Hprod : q * m * sizeof_slot < ptr_modulus) by nia.
  assert (Hmax : max_size = q * m).
  { unfold max_size. change (wrap (-1)) with (ptr_modulus - 1).
    fold q m. apply wrap_small. nia. }
  rewrite Hmax. split; [reflexivity|]. split; [nia|]. split; [exact Hprod|].
  intros b k Hk Hfit. subst q. apply Z.div_le_lower_bound; [exact Hs|].
  assert (Hpad : 0 <= padPointer (b + 8) alignof_slot).
  { unfold padPointer. apply Z.mod_pos_bound, alignof_slot_pos. }
  unfold first_slot, sizeof_pointer in Hfit. nia.
Qed.


(** ** The free list is a stack *)

Lemma allocate_each_app (o1 o2 : list (option Z)) (w : World) :
  allocate_each (o1 ++ o2) w =
    (fst (allocate_each o1 w)
       ++ fst (allocate_each o2 (snd (allocate_each o1 w))),
     snd (allocate_each o2 (snd (allocate_each o1 w)))).
Proof.
  revert w. induction o1 as [|sys o1 IH]; intros w.
  - cbn. now destruct (allocate_each o2 w).
  - cbn [app allocate_each].
    destruct (allocate 1 0 sys w) as [r w1]. rewrite IH.
    destruct (allocate_each o1 w1) as [rs w2]. cbn [fst snd].
    destruct (allocate_each o2 w2) as [rs' w3]. reflexivity.
Qed.

Lemma deallocate_each_lifo (ps : list Z) :
  NoDup ps -> Forall (fun p => p <> nullptr) ps ->
  forall (oracles : list (option Z)) (w : World),
    length oracles = length ps ->
    fst (allocate_each oracles (deallocate_each ps w))
      = map Returned (rev ps) /\
    pool (snd (allocate_each oracles (deallocate_each ps w))) = pool w /\
    events (snd (allocate_each oracles (deallocate_each ps w))) = events w /\
    forall a, ~ In a ps ->
      Heap.load (heap (snd (allocate_each oracles (deallocate_each ps w)))) a
      = Heap.load (heap w) a.
Proof.
  induction ps as [|p ps IH]; intros Hnd Hnn oracles w Hlen.
  - destruct oracles; [|discriminate]. cbn. auto.
  - inversion Hnd as [|? ? Hp Hps]; subst.
    inversion Hnn as [|? ? Hp0 Hps0]; subst.
    destruct (exists_last (l := oracles)) as (o1 & ol & ->).
    { intros ->. discriminate. }
    rewrite length_app in Hlen. cbn in Hlen.
    assert (Hlen1 : length o1 = length ps) by lia.
    cbn [deallocate_each]. rewrite allocate_each_app.
    destruct (IH Hps Hps0 o1 (deallocate p 1 w) Hlen1)
      as (Hrs & Hpool & Hev & Hheap).
    set (w1 := snd (allocate_each o1 (deallocate_each ps (deallocate p 1 w))))
      in *.
    assert (Hd : deallocate p 1 w =
                 mkWorld (mkPool (currentBlock_ (pool w)) (currentSlot_ (pool w))
                                 (lastSlot_ (pool w)) p)
                         (Heap.store (heap w) p (freeSlots_ (pool w)))
                         (events w)).
    { unfold deallocate. apply Z.eqb_neq in Hp0. now rewrite Hp0. }
    rewrite Hd in Hpool, Hev, Hheap. cbn [pool heap events] in Hpool, Hev, Hheap.
    assert (Hf1 : freeSlots_ (pool w1) <> nullptr) by (now rewrite Hpool).
    cbn [allocate_each fst snd].
    rewrite (allocate_free_list 1 0 ol w1 Hf1). cbn [fst snd].
    rewrite Hrs. cbn [rev]. rewrite map_app. cbn [map].
    split; [now rewrite Hpool|].
    unfold set_pool. cbn [pool heap events].
    rewrite Hpool. cbn [currentBlock_ currentSlot_ lastSlot_ freeSlots_].
    rewrite (Hheap p Hp), load_store_same.
    split; [now destruct (pool w)|]. split; [exact Hev|].
    intros a Ha. rewrite Hheap by (intros Hin; apply Ha; now right).
    apply load_store_other. intros ->. apply Ha. now left.
Qed.

(** Giving back distinct live addresses [p1 ... pk] and allocating [k] times
    returns [pk ... p1]: the addresses come back in the reverse order, the
    system allocator is never consulted, and afterwards the four cursors are
    what they were before the first [deallocate]. *)
Theorem deallocate_lifo
  (h : Heap.t) (ops : list op) (s : session)
  (ps : list Z) (oracles : list (option Z)) :
  run ops (start h) = Some s ->
  NoDup ps -> incl ps (live s) -> length oracles = length ps ->
  fst (allocate_each oracles (deallocate_each ps (world s)))
    = map Returned (rev ps) /\
  pool (snd (allocate_each oracles (deallocate_each ps (world s))))
    = pool (world s).
Proof.
  intros Hrun Hnd Hlive Hlen.
  destruct (run_invariant ops (start h) s [] (invariant_start h) Hrun)
    as [fl Hinv].
  assert (Hnn : Forall (fun p => p <> nullptr) ps).
  { apply Forall_forall. intros p Hp.
    apply (inv_slot_nonnull s fl p Hinv). apply in_or_app. left.
    now apply Hlive. }
  destruct (deallocate_each_lifo ps Hnd Hnn oracles (world s) Hlen)
    as (H1 & H2 & _).
  auto.
Qed.

(** ** Elements *)

Lemma sizeof_T_le_slot : sizeof_T <= sizeof_slot.
Proof.
  unfold sizeof_slot.
  pose proof (round_up_spec (Z.max sizeof_T sizeof_pointer) alignof_slot
                alignof_slot_pos) as [_ H].
  lia.
Qed.

(** How [newElement] ends.  If [allocate] fails, nothing is constructed and
    the world is unchanged.  Otherwise the constructor runs once, at the
    address [allocate] returned; the cursors stay as [allocate] left them and
    memory outside that slot as [allocate] left it.  This is so also when
    the constructor throws: the exception escapes, no element was
    constructed, and the slot is not given back to the pool. *)
Theorem newElement_outcomes
  (c : constructor_run) (sys : option Z) (w : World) :
  match allocate 1 0 sys w with
  | (BadAlloc, _) =>
      newElement c sys w = (NoMemory, w) /\
      sys = None /\ grows (pool w) = true
  | (Returned p, w1) =>
      fst (newElement c sys w)
        = (if completes c then Element p else ConstructorThrew) /\
      pool (snd (newElement c sys w)) = pool w1 /\
      freeSlots_ (pool (snd (newElement c sys w)))
        = (if freeSlots_ (pool w) =? nullptr then nullptr
           else Heap.load (heap w) (freeSlots_ (pool w))) /\
      events (snd (newElement c sys w))
        = events w ++ (if completes c then [Constructed p] else []) /\
      forall a, a <= p - 8 \/ p + sizeof_slot <= a ->
        Heap.load (heap (snd (newElement c sys w))) a
        = Heap.load (heap w1) a
  end.
Proof.
  pose proof sizeof_T_le_slot as HT.
  unfold newElement.
  destruct (allocate_outcomes 1 0 sys w) as [(p & w1 & E) | (E & Hs & Hg)].
  - rewrite E.
    destruct (construct_world sizeof_T p c w1) as (Hpool & Hheap & Hev).
    pose proof (allocate_events 1 0 sys w) as He. rewrite E in He.
    cbn [snd] in He.
    assert (Hfs : freeSlots_ (pool w1)
                  = (if freeSlots_ (pool w) =? nullptr then nullptr
                     else Heap.load (heap w) (freeSlots_ (pool w)))).
    { destruct (Z.eq_dec (freeSlots_ (pool w)) nullptr) as [Hf|Hf].
      - rewrite Hf. cbn [Z.eqb nullptr].
        destruct (Z_lt_le_dec (currentSlot_ (pool w)) (lastSlot_ (pool w)))
          as [Hlt|Hge].
        + rewrite (allocate_bump 1 0 sys w Hf Hlt) in E.
          injection E as _ <-. reflexivity.
        + rewrite (allocate_grow 1 0 sys w Hf Hge) in E.
          destruct sys as [b|]; cbn in E; [|discriminate].
          injection E as _ <-. reflexivity.
      - rewrite (allocate_free_list 1 0 sys w Hf) in E.
        injection E as _ <-. apply Z.eqb_neq in Hf. now rewrite Hf. }
    unfold construct in *. destruct (completes c); cbn [fst snd] in *;
      (split; [reflexivity|]); (split; [exact Hpool|]);
      (split; [now rewrite Hpool|]); (split; [now rewrite Hev, He|]);
      intros a Ha; rewrite Hheap; apply load_overwrite_outside; lia.
  - rewrite E. auto.
Qed.

Lemma new_delete_steady_world
  (c : constructor_run) (sys : option Z) (w : World) :
  freeSlots_ (pool w) <> nullptr -> completes c = true ->
  new_delete c sys w =
    (Element (freeSlots_ (pool w)),
     mkWorld (pool w)
       (Heap.store
          (Heap.overwrite (heap w) (freeSlots_ (pool w)) sizeof_T (written c))
          (freeSlots_ (pool w))
          (Heap.load (heap w) (freeSlots_ (pool w))))
       (events w ++ [Constructed (freeSlots_ (pool w))]
                 ++ [Destroyed (freeSlots_ (pool w))])).
Proof.
  intros Hf Hc. unfold new_delete, newElement.
  rewrite (allocate_free_list 1 0 sys w Hf).
  unfold construct. rewrite Hc.
  unfold deleteElement, deallocate.
  apply Z.eqb_neq in Hf. rewrite Hf. cbn [negb].
  unfold emit, set_pool.
  cbn [pool heap events currentBlock_ currentSlot_ lastSlot_ freeSlots_].
  rewrite <- app_assoc. destruct w as [[cb cs ls fs] h ev]. reflexivity.
Qed.


Lemma new_delete_each_steady
  (calls : list (constructor_run * option Z)) (w : World) :
  freeSlots_ (pool w) <> nullptr ->
  Forall (fun call => completes (fst call) = true) calls ->
  fst (new_delete_each calls w)
    = map (fun _ => Element (freeSlots_ (pool w))) calls /\
  pool (snd (new_delete_each calls w)) = pool w.
Proof.
  revert w. induction calls as [|[c sys] calls IH]; intros w Hf Hall.
  - cbn. auto.
  - inversion Hall as [|? ? Hc Hrest]; subst. cbn [fst] in Hc.
    cbn [new_delete_each].
    pose proof (new_delete_steady_world c sys w Hf Hc) as E. rewrite E.
    match goal with |- context [new_delete_each calls ?x] => set (w1 := x) end.
    assert (Hp1 : pool w1 = pool w) by reflexivity.
    assert (Hf1 : freeSlots_ (pool w1) <> nullptr) by (now rewrite Hp1).
    destruct (IH w1 Hf1 Hrest) as [Hrs Hpool].
    destruct (new_delete_each calls w1) as [rs w2]. cbn [fst snd] in *.
    rewrite Hrs, Hpool, Hp1. cbn [map]. auto.
Qed.



End Template.

(** * Concrete runs

    [MemoryPool<int, 32>]: [sizeof(int) = alignof(int) = 4], so a slot is 8
    bytes, aligned to 8, and a block at 4096 holds the three slots 4104,
    4112 and 4120. *)

Lemma allocate_order_witness :
  fst (allocate 4 4 32 1 0 (Some 4096)
         (mkWorld MemoryPool_new (fun _ => 0) []))
  = Returned 4104.
Proof.
  destruct (allocate_order 4 4 32 1 0 (mkWorld MemoryPool_new (fun _ => 0) []))
    as (_ & _ & Hgrow).
  destruct (Hgrow eq_refl ltac:(cbn; lia) 4096) as (_ & _ & H & _).
  rewrite H. reflexivity.
Defined.


Lemma allocate_ignores_arguments_witness :
  currentSlot_
    (pool (snd (allocate 4 4 32 7 99 (Some 4096)
                  (mkWorld MemoryPool_new (fun _ => 0) []))))
  = wrap (4104 + sizeof_slot 4 4).
Proof.
  destruct (allocate_ignores_arguments 4 4 32 7 99 1 0 (Some 4096)
              (mkWorld MemoryPool_new (fun _ => 0) [])) as (_ & H).
  destruct (H 4104 _ eq_refl) as [(Hp & _) | (_ & Hbump)].
  - discriminate Hp.
  - exact Hbump.
Defined.

Lemma free_then_allocate_reuses_witness :
  exists s,
    run 4 4 32 [OpAllocate 1 0 (Some 4096); OpAllocate 1 0 None]
        (start (fun _ => 0)) = Some s /\
    live s = [4112; 4104] /\
    fst (allocate 4 4 32 1 0 None (deallocate 4104 1 (world s)))
      = Returned 4104.
Proof.
  eexists. split; [reflexivity|]. split; [reflexivity|].
  assert (Hpow : exists k, 0 <= k < 64 /\ 4 = 2 ^ k)
    by (exists 2; split; [lia | reflexivity]).
  assert (Hsa : 32 >= 2 * sizeof_slot 4 4) by (vm_compute; discriminate).
  destruct (free_then_allocate_reuses 4 4 32
              Hpow Hsa
              (fun _ => 0)
              [OpAllocate 1 0 (Some 4096); OpAllocate 1 0 None]
              _ 4104 1 1 0 None eq_refl ltac:(right; left; reflexivity))
    as (_ & H & _).
  rewrite H. reflexivity.
Defined.

Lemma allocate_aligned_witness :
  exists s,
    run 4 4 32
        [OpAllocate 1 0 (Some 4096); OpAllocate 1 0 None;
         OpDeallocate 4104 1; OpAllocate 1 0 None]
        (start (fun _ => 0)) = Some s /\
    returned s = [4104; 4112; 4104] /\
    Forall (fun p => p mod 4 = 0 /\ p mod alignof_slot 4 = 0) (returned s).
Proof.
  eexists. split; [reflexivity|]. split; [reflexivity|].
  assert (Hpow : exists k, 0 <= k < 64 /\ 4 = 2 ^ k)
    by (exists 2; split; [lia | reflexivity]).
  assert (Hsa : 32 >= 2 * sizeof_slot 4 4) by (vm_compute; discriminate).
  apply (allocate_aligned 4 4 32
           Hpow Hsa
           (fun _ => 0)
           [OpAllocate 1 0 (Some 4096); OpAllocate 1 0 None;
            OpDeallocate 4104 1; OpAllocate 1 0 None]).
  reflexivity.
Defined.

Lemma growth_after_block_is_full_witness :
  fst (allocate_each 4 4 32 [Some 4096; None; None]
         (mkWorld MemoryPool_new (fun _ => 0) []))
    = [Returned 4104; Returned 4112; Returned 4120] /\
  fst (allocate 4 4 32 1 0 (Some 8192)
         (snd (allocate_each 4 4 32 [Some 4096; None; None]
                 (mkWorld MemoryPool_new (fun _ => 0) []))))
    = Returned 8200.
Proof.
  assert (Hpow : exists k, 0 <= k < 64 /\ 4 = 2 ^ k)
    by (exists 2; split; [lia | reflexivity]).
  assert (Hsa : 32 >= 2 * sizeof_slot 4 4) by (vm_compute; discriminate).
  destruct (growth_after_block_is_full 4 4 32
              Hpow Hsa
              (fun _ => 0) [] 4096 8192 3 [None; None]
              eq_refl eq_refl
              ltac:(vm_compute; split; [discriminate | reflexivity])
              eq_refl)
    as (Hrs & _ & _ & _ & w' & Hnext & _).
  split; [exact Hrs|]. rewrite Hnext. reflexivity.
Defined.

Lemma live_slots_apart_witness :
  exists s,
    run 4 4 32
        [OpAllocate 1 0 (Some 4096); OpAllocate 1 0 None;
         OpDeallocate 4104 1; OpAllocate 1 0 None]
        (start (fun _ => 0)) = Some s /\
    live s = [4104; 4112] /\
    NoDup (live s) /\
    forall p q, In p (live s) -> In q (live s) -> p <> q ->
      sizeof_slot 4 4 <= Z.abs (p - q).
Proof.
  eexists. split; [reflexivity|]. split; [reflexivity|].
  assert (Hpow : exists k, 0 <= k < 64 /\ 4 = 2 ^ k)
    by (exists 2; split; [lia | reflexivity]).
  assert (Hsa : 32 >= 2 * sizeof_slot 4 4) by (vm_compute; discriminate).
  apply (live_slots_apart 4 4 32
           Hpow Hsa
           (fun _ => 0)
           [OpAllocate 1 0 (Some 4096); OpAllocate 1 0 None;
            OpDeallocate 4104 1; OpAllocate 1 0 None]).
  reflexivity.
Defined.

Lemma padPointer_least_witness :
  least_padding 4104 16 (padPointer 4104 16) /\
  padPointer 4104 16 = (16 - 4104) mod 16.
Proof.
  apply (padPointer_least 4104 16 4); [lia | reflexivity].
Defined.

(** ** Runs for the further properties *)

Lemma returned_slots_inside_blocks_witness :
  match run 4 4 32
          [OpAllocate 1 0 (Some 4096); OpAllocate 1 0 None;
           OpAllocate 1 0 None; OpAllocate 1 0 (Some 8192)]
          (start (fun _ => 0)) with
  | Some s =>
      returned s = [8200; 4120; 4112; 4104] /\
      blocks s = [8192; 4096] /\
      Forall (fun p =>
                p <> nullptr /\
                exists b, In b (blocks s) /\
                  b + sizeof_pointer <= p /\
                  p + sizeof_slot 4 4 <= b + 32)
             (returned s)
  | None => False
  end.
Proof.
  assert (Hpow : exists k, 0 <= k < 64 /\ 4 = 2 ^ k)
    by (exists 2; split; [lia | reflexivity]).
  assert (Hsa : 32 >= 2 * sizeof_slot 4 4) by (vm_compute; discriminate).
  pose proof (returned_slots_inside_blocks 4 4 32 Hpow Hsa (fun _ => 0)
                [OpAllocate 1 0 (Some 4096); OpAllocate 1 0 None;
                 OpAllocate 1 0 None; OpAllocate 1 0 (Some 8192)]) as H.
  destruct (run 4 4 32 _ _) as [s|] eqn:E.
  - specialize (H s eq_refl). vm_compute in E. injection E as <-.
    split; [reflexivity|]. split; [reflexivity | exact H].
  - vm_compute in E. discriminate E.
Defined.

Lemma no_release_before_teardown_witness :
  match run 4 4 32
          [OpAllocate 1 0 (Some 4096);
           OpConstruct 4 4104 (mkRun (fun _ => 7) true);
           OpDeallocate 4104 1]
          (start (fun _ => 0)) with
  | Some s =>
      events (world s) = [Constructed 4104] /\
      forall b, ~ In (Deleted b) (events (world s))
  | None => False
  end.
Proof.
  pose proof (no_release_before_teardown 4 4 32 (fun _ => 0)
                [OpAllocate 1 0 (Some 4096);
                 OpConstruct 4 4104 (mkRun (fun _ => 7) true);
                 OpDeallocate 4104 1]) as H.
  destruct (run 4 4 32 _ _) as [s|] eqn:E.
  - specialize (H s eq_refl). vm_compute in E. injection E as <-.
    split; [reflexivity | apply H].
  - vm_compute in E. discriminate E.
Defined.

Lemma destructor_releases_each_block_once_witness :
  match run 4 4 32
          [OpAllocate 1 0 (Some 4096); OpAllocate 1 0 None;
           OpAllocate 1 0 None; OpAllocate 1 0 (Some 8192)]
          (start (fun _ => 0)) with
  | Some s =>
      blocks s = [8192; 4096] /\
      release_chain 2 (heap (world s)) (currentBlock_ (pool (world s)))
        = Some (blocks s)
  | None => False
  end.
Proof.
  assert (Hpow : exists k, 0 <= k < 64 /\ 4 = 2 ^ k)
    by (exists 2; split; [lia | reflexivity]).
  assert (Hsa : 32 >= 2 * sizeof_slot 4 4) by (vm_compute; discriminate).
  pose proof (destructor_releases_each_block_once 4 4 32 Hpow Hsa
                (fun _ => 0)
                [OpAllocate 1 0 (Some 4096); OpAllocate 1 0 None;
                 OpAllocate 1 0 None; OpAllocate 1 0 (Some 8192)]) as H.
  destruct (run 4 4 32 _ _) as [s|] eqn:E.
  - specialize (fun Hlen => H s 2%nat eq_refl Hlen).
    vm_compute in E. injection E as <-.
    split; [reflexivity|]. apply H. cbn. lia.
  - vm_compute in E. discriminate E.
Defined.

Lemma calls_preserve_live_slots_witness :
  match run 4 4 32
          [OpAllocate 1 0 (Some 4096);
           OpConstruct 4 4104 (mkRun (fun _ => 7) true);
           OpAllocate 1 0 None]
          (start (fun _ => 0)) with
  | Some s =>
      match step 4 4 32 (OpConstruct 4 4112 (mkRun (fun _ => 255) false)) s
      with
      | Some s' =>
          In 4104 (live s) /\
          Heap.load (heap (world s')) 4104 = Heap.load (heap (world s)) 4104
      | None => False
      end
  | None => False
  end.
Proof.
  assert (Hpow : exists k, 0 <= k < 64 /\ 4 = 2 ^ k)
    by (exists 2; split; [lia | reflexivity]).
  assert (Hsa : 32 >= 2 * sizeof_slot 4 4) by (vm_compute; discriminate).
  pose proof (calls_preserve_live_slots 4 4 32 Hpow Hsa (fun _ => 0)
                [OpAllocate 1 0 (Some 4096);
                 OpConstruct 4 4104 (mkRun (fun _ => 7) true);
                 OpAllocate 1 0 None]) as H.
  destruct (run 4 4 32 _ _) as [s|] eqn:E.
  - specialize (fun s' =>
        H s s' (OpConstruct 4 4112 (mkRun (fun _ => 255) false)) 4104 4104
          eq_refl).
    assert (Hlive : In 4104 (live s)).
    { vm_compute in E. injection E as <-. right. now left. }
    destruct (step 4 4 32 _ s) as [s'|] eqn:E'.
    + split; [exact Hlive|].
      apply (H s' eq_refl Hlive); [discriminate | lia | vm_compute; discriminate].
    + vm_compute in E. injection E as <-. vm_compute in E'. discriminate E'.
  - vm_compute in E. discriminate E.
Defined.

Lemma live_address_not_returned_again_witness :
  match run 4 4 32 [OpAllocate 1 0 (Some 4096)] (start (fun _ => 0)) with
  | Some s =>
      match run 4 4 32
              [OpAllocate 1 0 None; OpDeallocate 4112 1; OpAllocate 1 0 None]
              s with
      | Some s' =>
          In 4104 (live s') /\
          exists new, returned s' = new ++ returned s /\ ~ In 4104 new
      | None => False
      end
  | None => False
  end.
Proof.
  assert (Hpow : exists k, 0 <= k < 64 /\ 4 = 2 ^ k)
    by (exists 2; split; [lia | reflexivity]).
  assert (Hsa : 32 >= 2 * sizeof_slot 4 4) by (vm_compute; discriminate).
  pose proof (live_address_not_returned_again 4 4 32 Hpow Hsa (fun _ => 0)
                [OpAllocate 1 0 (Some 4096)]
                [OpAllocate 1 0 None; OpDeallocate 4112 1;
                 OpAllocate 1 0 None]) as H.
  destruct (run 4 4 32 [OpAllocate 1 0 (Some 4096)] _) as [s|] eqn:E.
  - specialize (fun s' => H s s' 4104 eq_refl).
    assert (Hlive : In 4104 (live s)).
    { vm_compute in E. injection E as <-. now left. }
    destruct (run 4 4 32 _ s) as [s'|] eqn:E'.
    + apply (H s' Hlive); [|reflexivity].
      intros n [Hin | [Hin | [Hin | []]]]; discriminate Hin.
    + vm_compute in E. injection E as <-. vm_compute in E'. discriminate E'.
  - vm_compute in E. discriminate E.
Defined.

Lemma copy_is_fresh_pool_witness :
  fst (allocate 4 4 32 1 0 (Some 8192)
         (mkWorld (MemoryPool_copy (mkPool 4096 4112 4121 0))
                  (fun _ => 0) []))
  = Returned (first_slot 4 8192).
Proof.
  assert (Hpow : exists k, 0 <= k < 64 /\ 4 = 2 ^ k)
    by (exists 2; split; [lia | reflexivity]).
  assert (Hsa : 32 >= 2 * sizeof_slot 4 4) by (vm_compute; discriminate).
  destruct (copy_is_fresh_pool 4 4 32 Hpow Hsa (mkPool 4096 4112 4121 0)
              (fun _ => 0) [] 1 0 8192 0%nat
              ltac:(lia) ltac:(vm_compute; reflexivity))
    as (_ & _ & H & _).
  exact H.
Defined.

Lemma block_holds_a_slot_witness :
  first_slot 16 4104 + sizeof_slot 16 16 <= 4104 + 32.
Proof.
  assert (Hpow : exists k, 0 <= k < 64 /\ 16 = 2 ^ k)
    by (exists 4; split; [lia | reflexivity]).
  assert (Hsa : 32 >= 2 * sizeof_slot 16 16) by (vm_compute; discriminate).
  destruct (block_holds_a_slot 16 16 32 Hpow Hsa 4104
              (mkWorld MemoryPool_new (fun _ => 0) [])
              ltac:(lia) ltac:(reflexivity) ltac:(vm_compute; reflexivity))
    as (_ & _ & _ & H & _).
  exact H.
Defined.

Lemma max_size_exact_witness :
  max_size 4 4 4096 * sizeof_slot 4 4 < ptr_modulus.
Proof.
  assert (Hpow : exists k, 0 <= k < 64 /\ 4 = 2 ^ k)
    by (exists 2; split; [lia | reflexivity]).
  assert (Hsa : 4096 >= 2 * sizeof_slot 4 4) by (vm_compute; discriminate).
  destruct (max_size_exact 4 4 4096 Hpow Hsa ltac:(vm_compute; reflexivity))
    as (_ & _ & H & _).
  exact H.
Defined.

Lemma deallocate_lifo_witness :
  match run 4 4 32
          [OpAllocate 1 0 (Some 4096); OpAllocate 1 0 None;
           OpAllocate 1 0 None]
          (start (fun _ => 0)) with
  | Some s =>
      fst (allocate_each 4 4 32 [None; None; None]
             (deallocate_each [4104; 4120; 4112] (world s)))
      = map Returned (rev [4104; 4120; 4112])
  | None => False
  end.
Proof.
  assert (Hpow : exists k, 0 <= k < 64 /\ 4 = 2 ^ k)
    by (exists 2; split; [lia | reflexivity]).
  assert (Hsa : 32 >= 2 * sizeof_slot 4 4) by (vm_compute; discriminate).
  pose proof (deallocate_lifo 4 4 32 Hpow Hsa (fun _ => 0)
                [OpAllocate 1 0 (Some 4096); OpAllocate 1 0 None;
                 OpAllocate 1 0 None]) as H.
  destruct (run 4 4 32 _ _) as [s|] eqn:E.
  - specialize (H s [4104; 4120; 4112] [None; None; None] eq_refl).
    assert (Hlive : incl [4104; 4120; 4112] (live s)).
    { vm_compute in E. injection E as <-.
      intros x [<- | [<- | [<- | []]]]; cbn; auto. }
    apply H; [|exact Hlive|reflexivity].
    repeat constructor; cbn; lia.
  - vm_compute in E. discriminate E.
Defined.




Lemma newElement_outcomes_witness :
  fst (newElement 4 4 32 (mkRun (fun _ => 7) false) None
         (mkWorld (mkPool 4096 4112 4121 4104) (fun _ => 0) []))
    = ConstructorThrew /\
  freeSlots_
    (pool (snd (newElement 4 4 32 (mkRun (fun _ => 7) false) None
                  (mkWorld (mkPool 4096 4112 4121 4104) (fun _ => 0) []))))
    = nullptr.
Proof.
  assert (Hpow : exists k, 0 <= k < 64 /\ 4 = 2 ^ k)
    by (exists 2; split; [lia | reflexivity]).
  pose proof (newElement_outcomes 4 4 32 Hpow (mkRun (fun _ => 7) false) None
                (mkWorld (mkPool 4096 4112 4121 4104) (fun _ => 0) [])) as H.
  cbn [allocate pool freeSlots_ Z.eqb negb nullptr] in H.
  destruct H as (H1 & _ & H3 & _).
  split; [exact H1 | exact H3].
Defined.
